(** * mini-promise: a shallow embedding of [src/Promise.js]

    The JavaScript module keeps every Promise instance in the garbage
    collected heap and mutates it in place; closures capture the instance
    they settle.  The embedding below makes that store explicit:

    - a Promise instance is an index into [heap];
    - every closure the module creates is a constructor of [func] that
      carries what the closure captured;
    - functions supplied by the caller are [User id]; what they do is given
      by an environment [user], and each invocation is recorded in [log];
    - [nextTick] appends to the queue [ticks]; the host runs it later;
    - recursion (callbacks calling back into the module, the two [while]
      loops of [flush]) is bounded by a level: [sem n] runs the module with
      call depth at most [n], and [Diverge] reports that the bound was hit. *)

From Stdlib Require Import ZArith String Lia.
From stdpp Require Import base list.

Open Scope string_scope.
Open Scope list_scope.

(** ** Values *)

(** [var STATUS_PENDING = 'pending'] and its two siblings. *)
Inductive status : Type :=
| STATUS_PENDING
| STATUS_FULFILLED
| STATUS_REJECTED.

#[export] Instance status_eq_dec : EqDecision status.
Proof. solve_decision. Defined.

(** The function values that can exist at run time.  Each closure
    constructor names the source function that creates it. *)
Inductive func : Type :=
| Noop                                (* function noop() { } *)
| User (id : nat)                     (* a function written by the caller *)
| SettleFulfilled (me : nat)          (* Promise: function (value) { resolvePromise(me, value); flush(me); } *)
| SettleRejected (me : nat)           (* Promise: function (reason) { rejectPromise(me, reason); flush(me); } *)
| AdoptFulfilled (source : nat)       (* adoptPromise: function (value) { return resolvePromise(source, value); } *)
| AdoptRejected (source : nat)        (* adoptPromise: function (reason) { return rejectPromise(source, reason); } *)
| ThenableResolve (frame : nat)       (* resolvePromise: first argument of then.call *)
| ThenableReject (frame : nat)        (* resolvePromise: second argument of then.call *)
| AllFulfilled (env index : nat)      (* Promise.all: function (value) { onFulfilled(index, value); } *)
| AllRejected (env index : nat)       (* Promise.all: function (value) { onRejected(index, value); } *)
| TickFlush (me : nat).               (* then: function () { flush(me); } *)

(** JavaScript values, as far as the module inspects them.  Of a plain
    object only the [then] member matters. *)
Inductive val : Type :=
| VUndefined
| VNull
| VNum (n : Z)
| VStr (s : string)
| VError (message : string)           (* new Error(message) *)
| VPromise (p : nat)                  (* an instance of Promise *)
| VArray (a : nat)                    (* an array, by reference *)
| VObject (then_ : member)            (* a plain object *)
| VFunction (f : func)
with member : Type :=
| Absent                              (* no such property: reads as undefined *)
| Field (v : val)                     (* a data property *)
| ThrowingGetter (e : val).           (* an accessor that throws e *)

(** [typeof fn === 'function'] *)
Definition isFunction (fn : val) : bool :=
  match fn with VFunction _ => true | _ => false end.

(** [p instanceof Promise] *)
Definition isPromise (p : val) : bool :=
  match p with VPromise _ => true | _ => false end.

(** [typeof value === 'object']; note that [typeof null] is ['object']. *)
Definition isObject (value : val) : bool :=
  match value with
  | VNull | VError _ | VPromise _ | VArray _ | VObject _ => true
  | _ => false
  end.

(** ** The store *)

(** An element of [promise.list]: [{resolve, reject, promise}]. *)
Record reaction : Type := Reaction {
  item_resolve : val;
  item_reject : val;
  item_promise : nat
}.

(** The fields of a Promise instance ([list] is [p_list] here). *)
Record instance : Type := Instance {
  p_status : status;
  p_value : val;
  p_reason : val;
  p_list : list reaction
}.

(** The local variables of one activation of [resolvePromise] that its
    two closures capture. *)
Record frame : Type := Frame {
  isResolved : bool;
  isRejected : bool;
  f_promise : nat
}.

(** The variables of one activation of [Promise.all]. *)
Record all_env : Type := AllEnv {
  result : nat;
  length_ : nat;
  couter : nat;
  values : nat
}.

(** What an observer sees: the caller's function [id] was invoked. *)
Inductive event : Type :=
| Invoked (id : nat) (args : list val).

Record state : Type := State {
  heap : list instance;
  arrays : list (list (option val));   (* None is a hole of a sparse array *)
  frames : list frame;
  envs : list all_env;
  ticks : list func;                   (* callbacks handed to nextTick, oldest first *)
  log : list event
}.

Definition empty_state : state := State [] [] [] [] [] [].

#[export] Instance val_inhabited : Inhabited val := populate VUndefined.
#[export] Instance instance_inhabited : Inhabited instance :=
  populate (Instance STATUS_PENDING VUndefined VUndefined []).
#[export] Instance frame_inhabited : Inhabited frame :=
  populate (Frame false false 0).
#[export] Instance all_env_inhabited : Inhabited all_env :=
  populate (AllEnv 0 0 0 0).

(** ** Computations: state, exceptions and a bound on the call depth *)

Inductive outcome (A : Type) : Type :=
| Return (a : A) (s : state)
| Throw (e : val) (s : state)
| Diverge.
Arguments Return {A} a s.
Arguments Throw {A} e s.
Arguments Diverge {A}.

Definition M (A : Type) : Type := state -> outcome A.

Definition ret {A} (a : A) : M A := fun s => Return a s.
Definition throw {A} (e : val) : M A := fun s => Throw e s.
Definition bind {A B} (m : M A) (k : A -> M B) : M B :=
  fun s => match m s with
           | Return a s' => k a s'
           | Throw e s' => Throw e s'
           | Diverge => Diverge
           end.
(** [try { m } catch (e) { handler e }] *)
Definition try_catch {A} (m : M A) (handler : val -> M A) : M A :=
  fun s => match m s with
           | Throw e s' => handler e s'
           | r => r
           end.
Definition gets {A} (f : state -> A) : M A := fun s => Return (f s) s.
Definition modify (f : state -> state) : M unit := fun s => Return tt (f s).

Notation "'let*' x ':=' m 'in' k" := (bind m (fun x => k))
  (at level 10, x name, m at level 100, k at level 200, only parsing).
Notation "m '>>' k" := (bind m (fun _ => k))
  (at level 90, right associativity, only parsing).

(** *** Field access *)

Definition get (p : nat) (s : state) : instance := heap s !!! p.

Definition set_heap (h : list instance) (s : state) : state :=
  State h (arrays s) (frames s) (envs s) (ticks s) (log s).
Definition set_arrays (a : list (list (option val))) (s : state) : state :=
  State (heap s) a (frames s) (envs s) (ticks s) (log s).
Definition set_frames (f : list frame) (s : state) : state :=
  State (heap s) (arrays s) f (envs s) (ticks s) (log s).
Definition set_envs (e : list all_env) (s : state) : state :=
  State (heap s) (arrays s) (frames s) e (ticks s) (log s).
Definition set_ticks (t : list func) (s : state) : state :=
  State (heap s) (arrays s) (frames s) (envs s) t (log s).
Definition set_log (l : list event) (s : state) : state :=
  State (heap s) (arrays s) (frames s) (envs s) (ticks s) l.

Definition update (p : nat) (f : instance -> instance) (s : state) : state :=
  set_heap (<[p := f (get p s)]> (heap s)) s.

(** [promise.status = STATUS_FULFILLED; promise.value = value;] *)
Definition write_fulfilled (p : nat) (value : val) : M unit :=
  modify (update p (fun o => Instance STATUS_FULFILLED value (p_reason o) (p_list o))).
(** [promise.status = STATUS_REJECTED; promise.reason = reason;] *)
Definition write_rejected (p : nat) (reason : val) : M unit :=
  modify (update p (fun o => Instance STATUS_REJECTED (p_value o) reason (p_list o))).
(** [me.list.push(item)] *)
Definition push_reaction (p : nat) (item : reaction) : M unit :=
  modify (update p (fun o => Instance (p_status o) (p_value o) (p_reason o) (p_list o ++ [item]))).
(** the removal done by [list.shift()] *)
Definition write_list (p : nat) (l : list reaction) : M unit :=
  modify (update p (fun o => Instance (p_status o) (p_value o) (p_reason o) l)).
(** [me.status = STATUS_PENDING; me.list = [ ];] on the object [me].  The
    object [new] allocates is the next free index; it enters [heap] here,
    when its fields are first written. *)
Definition write_initial (me : nat) : M unit :=
  modify (fun s =>
    if decide (me < length (heap s))
    then update me (fun o => Instance STATUS_PENDING (p_value o) (p_reason o) []) s
    else set_heap (heap s ++ [Instance STATUS_PENDING VUndefined VUndefined []]) s).

(** [nextTick(fn)]: the host keeps [fn] and calls it after the current
    call stack has unwound. *)
Definition nextTick (fn : func) : M unit :=
  modify (fun s => set_ticks (ticks s ++ [fn]) s).

Definition record (e : event) : M unit :=
  modify (fun s => set_log (log s ++ [e]) s).

(** [var isResolved = false; var isRejected = false;] *)
Definition new_frame (p : nat) : M nat :=
  fun s => Return (length (frames s)) (set_frames (frames s ++ [Frame false false p]) s).
Definition get_frame (c : nat) : M frame := gets (fun s => frames s !!! c).
Definition put_frame (c : nat) (f : frame) : M unit :=
  modify (fun s => set_frames (<[c := f]> (frames s)) s).

(** [values[index] = value] on a JavaScript array: an index past the end
    extends the array, leaving holes. *)
Definition array_store (l : list (option val)) (index : nat) (value : val) : list (option val) :=
  if decide (index < length l) then <[index := Some value]> l
  else l ++ replicate (index - length l) None ++ [Some value].

(** [value.then].  Reading a property of [undefined] or [null] throws a
    TypeError; numbers, strings, arrays, Error objects and the closures of
    this model have no [then]. *)
Definition read_then (value : val) : val + val :=
  match value with
  | VUndefined => inr (VError "Cannot read property 'then' of undefined")
  | VNull => inr (VError "Cannot read property 'then' of null")
  | VObject Absent => inl VUndefined
  | VObject (Field v) => inl v
  | VObject (ThrowingGetter e) => inr e
  | _ => inl VUndefined
  end.

(** First argument of a call, [undefined] when missing. *)
Definition arg0 (args : list val) : val := default VUndefined (head args).

(** ** Functions written by the caller

    A caller's function is known by what it does when invoked: the calls
    it makes, in order, and how it completes.  A call that throws ends the
    function with that exception (no [try] in the caller's code). *)

Inductive action : Type :=
| Call (callee : val) (args : list val).

Inductive completion : Type :=
| Normal (v : val)                    (* return v *)
| Abrupt (e : val).                   (* throw e *)

Record body : Type := Body {
  actions : list action;
  completes : completion
}.

(** ** The module *)

(** The functions of the module that call each other recursively, at one
    call depth. *)
Record ops : Type := Ops {
  call : val -> list val -> M val;              (* f(args) *)
  resolvePromise : nat -> val -> M unit;
  adoptPromise : nat -> nat -> M unit;
  flush_promises : list nat -> M unit;          (* while (promise = promises.shift()) *)
  flush_list : nat -> list nat -> M (list nat)  (* while (item = list.shift()) *)
}.

Section Module_.

(** The behaviour of the caller's functions. *)
Variable user : nat -> list val -> body.

(** [function rejectPromise(promise, reason)] *)
Definition rejectPromise (promise : nat) (reason : val) : M unit :=
  let* o := gets (get promise) in
  match p_status o with
  | STATUS_PENDING => write_rejected promise reason
  | _ => ret tt
  end.

Section Bodies.

(** The module one call deeper. *)
Variable rec : ops.

(** The statements of [function Promise(executor)] that follow the
    [isPromise(me)] test, on the instance [me]. *)
Definition Promise_init (me : nat) (executor : val) : M unit :=
  if isFunction executor then
    write_initial me >>
    call rec executor [VFunction (SettleFulfilled me); VFunction (SettleRejected me)] >>
    ret tt
  else
    throw (VError "Promise resolver executor is not a function.").

(** [new Promise(executor)]: a fresh object whose prototype is
    [Promise.prototype] is the receiver; the call returns nothing, so the
    expression is that object. *)
Definition new_Promise (executor : val) : M val :=
  let* me := gets (fun s => length (heap s)) in
  Promise_init me executor >>
  ret (VPromise me).

(** [function Promise(executor)] called with receiver [this]. *)
Definition Promise (this : val) (executor : val) : M val :=
  match this with
  | VPromise me => Promise_init me executor >> ret VUndefined
  | _ => new_Promise executor
  end.

(** [proto.then = function (onFulfilled, onRejected)] with receiver [me]. *)
Definition then_ (me : nat) (onFulfilled onRejected : val) : M val :=
  let* result := Promise VUndefined (VFunction Noop) in
  push_reaction me (Reaction onFulfilled onRejected
                      (match result with VPromise r => r | _ => 0 end)) >>
  let* o := gets (get me) in
  match p_status o with
  | STATUS_PENDING => ret result
  | _ => nextTick (TickFlush me) >> ret result
  end.

(** [proto.catch = function (onRejected)] *)
Definition catch_ (me : nat) (onRejected : val) : M val :=
  then_ me VNull onRejected.

(** [function flush(promise)].  Its first test, [promise.list === 0],
    compares an array with a number and is never true. *)
Definition flush (promise : nat) : M unit :=
  flush_promises rec [promise].

(** The body of [while (promise = promises.shift())]. *)
Definition flush_promises_body (promises : list nat) : M unit :=
  match promises with
  | [] => ret tt
  | promise :: promises =>
    let* o := gets (get promise) in
    match p_status o with
    | STATUS_PENDING => flush_promises rec promises
    | _ =>
      let* promises := flush_list rec promise promises in
      flush_promises rec promises
    end
  end.

(** Which callback of [item] the settled [promise] selects, with its
    argument; [None] when [func] stays unset. *)
Definition select (o : instance) (item : reaction) : option (val * val) :=
  match p_status o with
  | STATUS_FULFILLED =>
    if isFunction (item_resolve item) then Some (item_resolve item, p_value o) else None
  | STATUS_REJECTED =>
    if isFunction (item_reject item) then Some (item_reject item, p_reason o) else None
  | STATUS_PENDING => None
  end.

(** The body of [while (item = list.shift())]; [list] is [promise.list]. *)
Definition flush_list_body (promise : nat) (promises : list nat) : M (list nat) :=
  let* o := gets (get promise) in
  match p_list o with
  | [] => ret promises
  | item :: rest =>
    write_list promise rest >>
    let itemPromise := item_promise item in
    let* o := gets (get promise) in
    match select o item with
    | Some (func, param) =>
      try_catch
        (let* x := call rec func [param] in resolvePromise rec itemPromise x)
        (fun e => rejectPromise itemPromise e)
    | None => adoptPromise rec itemPromise promise
    end >>
    flush_list rec promise (promises ++ [itemPromise])
  end.

(** [function adoptPromise(source, target)] *)
Definition adoptPromise_body (source target : nat) : M unit :=
  let* o := gets (get target) in
  match p_status o with
  | STATUS_PENDING =>
    then_ target (VFunction (AdoptFulfilled source)) (VFunction (AdoptRejected source)) >>
    ret tt
  | STATUS_FULFILLED => resolvePromise rec source (p_value o)
  | STATUS_REJECTED => rejectPromise source (p_reason o)
  end.

(** The [catch (e)] clause of [resolvePromise]; [isProcessed] is the
    value the variable has when the exception arrives. *)
Definition thenable_failed (promise fr : nat) (isProcessed : bool) (e : val) : M bool :=
  let* f := get_frame fr in
  if negb (isResolved f) && negb (isRejected f) then
    rejectPromise promise e >> ret true
  else ret isProcessed.

(** [function resolvePromise(promise, value)] *)
Definition resolvePromise_body (promise : nat) (value : val) : M unit :=
  let* o := gets (get promise) in
  match p_status o with
  | STATUS_PENDING =>
    match value with
    | VPromise target =>
      if decide (promise = target) then
        throw (VError "promise and value refer to the same object.")
      else adoptPromise rec promise target
    | _ =>
      let* isProcessed :=
        if isObject value || isFunction value then
          let* fr := new_frame promise in
          match read_then value with
          | inr e => thenable_failed promise fr false e
          | inl then_ =>
            if isFunction then_ then
              try_catch
                (call rec then_ [VFunction (ThenableResolve fr); VFunction (ThenableReject fr)] >>
                 ret true)
                (thenable_failed promise fr true)
            else ret false
          end
        else ret false in
      if isProcessed then ret tt else write_fulfilled promise value
    end
  | _ => ret tt
  end.

(** [onFulfilled(index, value)] of [Promise.all] *)
Definition all_onFulfilled (env index : nat) (value : val) : M unit :=
  let* e := gets (fun s => envs s !!! env) in
  modify (fun s => set_arrays (<[values e := array_store (arrays s !!! values e) index value]> (arrays s)) s) >>
  modify (fun s => set_envs (<[env := AllEnv (result e) (length_ e) (S (couter e)) (values e)]> (envs s)) s) >>
  if decide (S (couter e) = length_ e) then
    resolvePromise rec (result e) (VArray (values e)) >>
    flush (result e)
  else ret tt.

(** [onRejected(index, reason)] of [Promise.all] *)
Definition all_onRejected (env index : nat) (reason : val) : M unit :=
  let* e := gets (fun s => envs s !!! env) in
  rejectPromise (result e) reason >>
  flush (result e).

(** The calls a caller's function makes, in order. *)
Fixpoint run_actions (l : list action) : M unit :=
  match l with
  | [] => ret tt
  | Call callee args :: l => call rec callee args >> run_actions l
  end.

(** [f(args)] for every function value; calling anything else throws a
    TypeError. *)
Definition call_body (f : val) (args : list val) : M val :=
  match f with
  | VFunction Noop => ret VUndefined
  | VFunction (User id) =>
    record (Invoked id args) >>
    run_actions (actions (user id args)) >>
    match completes (user id args) with
    | Normal v => ret v
    | Abrupt e => throw e
    end
  | VFunction (SettleFulfilled me) =>
    resolvePromise rec me (arg0 args) >> flush me >> ret VUndefined
  | VFunction (SettleRejected me) =>
    rejectPromise me (arg0 args) >> flush me >> ret VUndefined
  | VFunction (AdoptFulfilled source) =>
    resolvePromise rec source (arg0 args) >> ret VUndefined
  | VFunction (AdoptRejected source) =>
    rejectPromise source (arg0 args) >> ret VUndefined
  | VFunction (ThenableResolve fr) =>
    let* f := get_frame fr in
    if isResolved f then ret VUndefined
    else
      put_frame fr (Frame true (isRejected f) (f_promise f)) >>
      resolvePromise rec (f_promise f) (arg0 args) >>
      ret VUndefined
  | VFunction (ThenableReject fr) =>
    let* f := get_frame fr in
    if isRejected f then ret VUndefined
    else
      put_frame fr (Frame (isResolved f) true (f_promise f)) >>
      rejectPromise (f_promise f) (arg0 args) >>
      ret VUndefined
  | VFunction (AllFulfilled env index) =>
    all_onFulfilled env index (arg0 args) >> ret VUndefined
  | VFunction (AllRejected env index) =>
    all_onRejected env index (arg0 args) >> ret VUndefined
  | VFunction (TickFlush me) => flush me >> ret VUndefined
  | _ => throw (VError "is not a function")
  end.

(** The [for] loop of [Promise.all], from [index] on. *)
Fixpoint all_register (env index : nat) (promises : list val) : M unit :=
  match promises with
  | [] => ret tt
  | VPromise p :: promises =>
    then_ p (VFunction (AllFulfilled env index)) (VFunction (AllRejected env index)) >>
    all_register env (S index) promises
  | other :: promises =>
    (* promises[index].then(...) on a value that is no Promise instance *)
    match read_then other with
    | inl m =>
      call rec m [VFunction (AllFulfilled env index); VFunction (AllRejected env index)] >>
      all_register env (S index) promises
    | inr e => throw e
    end
  end.

(** [Promise.all = function (promises)] *)
Definition all (promises : list val) : M val :=
  let* result := Promise VUndefined (VFunction Noop) in
  let* values := fun s => Return (length (arrays s)) (set_arrays (arrays s ++ [[]]) s) in
  let* env := fun s =>
    Return (length (envs s))
      (set_envs (envs s ++ [AllEnv (match result with VPromise r => r | _ => 0 end)
                              (length promises) 0 values]) s) in
  all_register env 0 promises >>
  ret result.

(** [Promise.resolve = function (value)] and [Promise.reject]; the
    executors are closures of the module, written out here. *)
Definition Promise_resolve (value : val) : M val :=
  let* me := gets (fun s => length (heap s)) in
  write_initial me >>
  call rec (VFunction (SettleFulfilled me)) [value] >>
  ret (VPromise me).

Definition Promise_reject (reason : val) : M val :=
  let* me := gets (fun s => length (heap s)) in
  write_initial me >>
  call rec (VFunction (SettleRejected me)) [reason] >>
  ret (VPromise me).

Definition step : ops :=
  Ops call_body resolvePromise_body adoptPromise_body flush_promises_body flush_list_body.

End Bodies.

(** No call depth left. *)
Definition bottom : ops :=
  Ops (fun _ _ _ => Diverge) (fun _ _ _ => Diverge) (fun _ _ _ => Diverge)
      (fun _ _ => Diverge) (fun _ _ _ => Diverge).

(** The module with call depth at most [n]. *)
Fixpoint sem (n : nat) : ops :=
  match n with
  | 0 => bottom
  | S n => step (sem n)
  end.

(** The host runs the oldest callback handed to [nextTick]. *)
Definition run_tick (n : nat) : M unit :=
  fun s => match ticks s with
           | [] => Return tt s
           | fn :: rest => (call (sem n) (VFunction fn) [] >> ret tt) (set_ticks rest s)
           end.

End Module_.

(** ** Notions used in the statements *)

(** The three fields that record a settlement. *)
Definition settlement (o : instance) : status * val * val :=
  (p_status o, p_value o, p_reason o).

(** [R] relates the state before a computation to the state it ends in,
    whether it returns or throws. *)
Definition holds_at (R : state -> state -> Prop) {A} (m : M A) (s : state) : Prop :=
  match m s with
  | Return _ s' => R s s'
  | Throw _ s' => R s s'
  | Diverge => True
  end.

Definition preserves (R : state -> state -> Prop) {A} (m : M A) : Prop :=
  forall s, holds_at R m s.

Record ops_preserve (R : state -> state -> Prop) (rec : ops) : Prop := OpsPreserve {
  pres_call : forall f args, preserves R (call rec f args);
  pres_resolvePromise : forall p v, preserves R (resolvePromise rec p v);
  pres_adoptPromise : forall p q, preserves R (adoptPromise rec p q);
  pres_flush_promises : forall l, preserves R (flush_promises rec l);
  pres_flush_list : forall p l, preserves R (flush_list rec p l)
}.

(** A relation on states that every elementary write of the module
    respects.  The writes are listed with the guard under which the source
    performs them. *)
Record admissible (R : state -> state -> Prop) : Prop := Admissible {
  adm_refl : forall s, R s s;
  adm_trans : forall s1 s2 s3, R s1 s2 -> R s2 s3 -> R s1 s3;
  adm_fulfil : forall p v s,
    p_status (get p s) = STATUS_PENDING -> isPromise v = false ->
    R s (update p (fun o => Instance STATUS_FULFILLED v (p_reason o) (p_list o)) s);
  adm_reject : forall p e s,
    p_status (get p s) = STATUS_PENDING ->
    R s (update p (fun o => Instance STATUS_REJECTED (p_value o) e (p_list o)) s);
  adm_push : forall p item s,
    R s (update p (fun o => Instance (p_status o) (p_value o) (p_reason o) (p_list o ++ [item])) s);
  adm_shift : forall p item rest s,
    p_list (get p s) = item :: rest ->
    R s (update p (fun o => Instance (p_status o) (p_value o) (p_reason o) rest) s);
  adm_alloc : forall s,
    R s (set_heap (heap s ++ [Instance STATUS_PENDING VUndefined VUndefined []]) s);
  adm_arrays : forall a s, R s (set_arrays a s);
  adm_frames : forall f s, R s (set_frames f s);
  adm_envs : forall e s, R s (set_envs e s);
  adm_ticks : forall fn s, R s (set_ticks (ticks s ++ [fn]) s);
  adm_log : forall e s, R s (set_log (log s ++ [e]) s)
}.

(** Settled instances keep their settlement. *)
Definition stable (s s' : state) : Prop :=
  forall p, p_status (get p s) <> STATUS_PENDING ->
            settlement (get p s') = settlement (get p s).

(** The log only grows. *)
Definition log_grows (s s' : state) : Prop :=
  exists l, log s' = log s ++ l.

(** No instance is fulfilled with a Promise instance as its value:
    [resolvePromise] stores a value only when [isPromise(value)] fails. *)
Definition heap_ok (s : state) : Prop :=
  forall p, p_status (get p s) = STATUS_FULFILLED -> isPromise (p_value (get p s)) = false.

Definition keeps_heap_ok (s s' : state) : Prop := heap_ok s -> heap_ok s'.

Definition throws {A} (r : outcome A) : Prop :=
  match r with Throw _ _ => True | _ => False end.

Definition returns {A} (r : outcome A) : Prop :=
  match r with Return _ _ => True | _ => False end.

(** What can be thrown out of the module's own functions: under [heap_ok],
    [resolvePromise] throws only when asked to resolve an instance with
    itself, and [adoptPromise] and the two loops of [flush] never throw. *)
Record ops_safe (rec : ops) : Prop := OpsSafe {
  safe_noop : forall args s, ~ throws (call rec (VFunction Noop) args s);
  safe_resolvePromise : forall p v s,
    heap_ok s -> throws (resolvePromise rec p v s) -> v = VPromise p;
  safe_adoptPromise : forall p q s, heap_ok s -> ~ throws (adoptPromise rec p q s);
  safe_flush_promises : forall l s, heap_ok s -> ~ throws (flush_promises rec l s);
  safe_flush_list : forall p l s, heap_ok s -> ~ throws (flush_list rec p l s)
}.

(** [heap_ok], decided on the instances of the heap. *)
Definition heap_okb (s : state) : bool :=
  forallb (fun o => match p_status o with
                    | STATUS_FULFILLED => negb (isPromise (p_value o))
                    | _ => true
                    end) (heap s).


(** Second argument of a call. *)
Definition arg1 (args : list val) : val := default VUndefined (head (tail args)).

(** Caller functions used in the examples below.
    - 0: [function (x) { return x; }]
    - 1: [function () { throw 'boom'; }]
    - 2: [function () { }]
    - 3: a [then] member, [function (res, rej) { res(q); rej('r'); }] where
         [q] is the instance at index 1
    - 4: [function (x) { return x + 1; }] on numbers
    - 5: a [then] member, [function (res, rej) { res(1); rej('r'); res(2); }]
    - 6: [function () { return d; }] where [d] is the instance at index 1
    - 7: a [then] member, [function (res) { res(f); }] where [f] is the
         instance at index 0 *)
Definition demo (id : nat) (args : list val) : body :=
  match id with
  | 0 => Body [] (Normal (arg0 args))
  | 1 => Body [] (Abrupt (VStr "boom"))
  | 2 => Body [] (Normal VUndefined)
  | 3 => Body [Call (arg0 args) [VPromise 1]; Call (arg1 args) [VStr "r"]] (Normal VUndefined)
  | 4 => Body [] (Normal (match arg0 args with VNum n => VNum (n + 1) | v => v end))
  | 5 => Body [Call (arg0 args) [VNum 1]; Call (arg1 args) [VStr "r"]; Call (arg0 args) [VNum 2]]
              (Normal VUndefined)
  | 6 => Body [] (Normal (VPromise 1))
  | 7 => Body [Call (arg0 args) [VPromise 0]] (Normal VUndefined)
  | _ => Body [] (Normal VUndefined)
  end.

(** A pending instance with nothing registered, as the constructor leaves it
    when the executor keeps the two callbacks for later. *)
Definition fresh : instance := Instance STATUS_PENDING VUndefined VUndefined [].

(** One call of a settlement routine. *)
Inductive attempt : Type :=
| Fulfil (value : val)                (* resolvePromise(f, value) *)
| Refuse (reason : val).              (* rejectPromise(f, reason) *)

Definition settle (rec : ops) (f : nat) (a : attempt) : M unit :=
  match a with
  | Fulfil value => resolvePromise rec f value
  | Refuse reason => rejectPromise f reason
  end.

Fixpoint settle_all (rec : ops) (f : nat) (l : list attempt) : M unit :=
  match l with
  | [] => ret tt
  | a :: l => settle rec f a >> settle_all rec f l
  end.

(** The state [then] leaves behind. *)
Definition after_then (me : nat) (onFulfilled onRejected : val) (s : state) : state :=
  let s1 := set_heap (heap s ++ [fresh]) s in
  let s2 := update me (fun o => Instance (p_status o) (p_value o) (p_reason o)
                         (p_list o ++ [Reaction onFulfilled onRejected (length (heap s))])) s1 in
  match p_status (get me s2) with
  | STATUS_PENDING => s2
  | _ => set_ticks (ticks s2 ++ [TickFlush me]) s2
  end.

(** The state a computation ends in. *)
Definition state_after {A} (m : M A) (s : state) : state :=
  match m s with
  | Return _ s' => s'
  | Throw _ s' => s'
  | Diverge => s
  end.

(** [var f = new Promise(function () { })]: one pending instance. *)
Definition one_pending : state :=
  state_after (new_Promise (sem demo 2) (VFunction (User 2))) empty_state.

(** [var f = new Promise(function () { }); var q = new Promise(function () { })] *)
Definition two_pending : state :=
  state_after (new_Promise (sem demo 2) (VFunction (User 2))) one_pending.

(** [f.then(function (x) { return x; })] on the pending [f]. *)
Definition one_waiting : state :=
  state_after (then_ (sem demo 2) 0 (VFunction (User 0)) VUndefined) one_pending.

(** [var f = Promise.resolve(7)] *)
Definition one_fulfilled : state :=
  state_after (Promise_resolve (sem demo 4) (VNum 7)) empty_state.

(** *** Observers

    The order-of-delivery statements are about callbacks that only watch:
    functions of the caller that call nothing and return a primitive value
    or throw. *)

(** Values that are neither objects nor functions: [resolvePromise] stores
    them as they are. *)
Definition primitive (v : val) : Prop := isObject v = false /\ isFunction v = false.

Definition fulfil_with (v : val) (o : instance) : instance :=
  Instance STATUS_FULFILLED v (p_reason o) (p_list o).
Definition reject_with (e : val) (o : instance) : instance :=
  Instance STATUS_REJECTED (p_value o) e (p_list o).
Definition with_list (l : list reaction) (o : instance) : instance :=
  Instance (p_status o) (p_value o) (p_reason o) l.

(** The callback that the settled [o] selects from [item] is an observer;
    when none is selected, a fulfilled [o] passes a primitive value on. *)
Definition observed (user : nat -> list val -> body) (o : instance) (item : reaction) : Prop :=
  match select o item with
  | Some (VFunction (User id), param) =>
    actions (user id [param]) = [] /\
    match completes (user id [param]) with
    | Normal x => primitive x
    | Abrupt _ => True
    end
  | Some _ => False
  | None => p_status o = STATUS_FULFILLED -> primitive (p_value o)
  end.

(** What the observer of [item] leaves in the log. *)
Definition invocation (o : instance) (item : reaction) : list event :=
  match select o item with
  | Some (VFunction (User id), param) => [Invoked id [param]]
  | _ => []
  end.

(** The settlement the derived instance of [item] receives. *)
Definition derived_as (user : nat -> list val -> body) (o : instance) (item : reaction)
    : instance -> instance :=
  match select o item with
  | Some (VFunction (User id), param) =>
    match completes (user id [param]) with
    | Normal x => fulfil_with x
    | Abrupt e => reject_with e
    end
  | Some _ => fun d => d
  | None =>
    match p_status o with
    | STATUS_FULFILLED => fulfil_with (p_value o)
    | STATUS_REJECTED => reject_with (p_reason o)
    | STATUS_PENDING => fun d => d
    end
  end.

(** The state after [flush] has dealt with [item] of the settled [o]. *)
Definition delivered (user : nat -> list val -> body) (o : instance) (item : reaction)
    (s : state) : state :=
  update (item_promise item) (derived_as user o item)
    (set_log (log s ++ invocation o item) s).

(** The state after the inner loop of [flush] has emptied the list
    [items] of the instance [p], settled as [o]. *)
Fixpoint deliveries (user : nat -> list val -> body) (p : nat) (o : instance)
    (items : list reaction) (s : state) : state :=
  match items with
  | [] => s
  | item :: rest => deliveries user p o rest (delivered user o item (update p (with_list rest) s))
  end.

(** [p.then(f1, r1); p.then(f2, r2); ...] *)
Fixpoint register (rec : ops) (p : nat) (callbacks : list (val * val)) : M unit :=
  match callbacks with
  | [] => ret tt
  | (onFulfilled, onRejected) :: callbacks =>
    then_ rec p onFulfilled onRejected >> register rec p callbacks
  end.


(** The callback of the constructor that performs the attempt [a] on [p],
    with its argument. *)
Definition settling (p : nat) (a : attempt) : val * val :=
  match a with
  | Fulfil value => (VFunction (SettleFulfilled p), value)
  | Refuse reason => (VFunction (SettleRejected p), reason)
  end.

(** The instance [a] turns a pending instance into, for a primitive value. *)
Definition settled_by (a : attempt) : instance -> instance :=
  match a with
  | Fulfil value => fulfil_with value
  | Refuse reason => reject_with reason
  end.




(** [f] is fulfilled with 7 and three reactions wait in its list; the
    first observer throws ['boom'], the others return. *)
Definition three_waiting : state :=
  state_after (resolvePromise (sem demo 1) 0 (VNum 7))
    (state_after (register (sem demo 1) 0
                    [(VFunction (User 1), VUndefined);
                     (VFunction (User 0), VUndefined);
                     (VFunction (User 4), VUndefined)]) one_pending).


(** *** [Promise.all] and what happens to its inputs afterwards *)

(** The state the [for] loop of [Promise.all] leaves behind. *)
Fixpoint all_registered (env index : nat) (ps : list nat) (s : state) : state :=
  match ps with
  | [] => s
  | p :: ps =>
    all_registered env (S index) ps
      (after_then p (VFunction (AllFulfilled env index)) (VFunction (AllRejected env index)) s)
  end.

(** The state [Promise.all(ps)] leaves behind. *)
Definition after_all (ps : list nat) (s : state) : state :=
  all_registered (length (envs s)) 0 ps
    (set_envs (envs s ++ [AllEnv (length (heap s)) (length ps) 0 (length (arrays s))])
       (set_arrays (arrays s ++ [[]])
          (set_heap (heap s ++ [fresh]) s))).

(** What can happen to input [i] after [Promise.all] has returned: the
    owner of the input calls one of the callbacks its constructor gave out,
    or the host runs the closure [then] handed to [nextTick] for it. *)
Inductive move : Type :=
| Settle (i : nat) (a : attempt)
| Tick (i : nat).

Definition move_index (mv : move) : nat :=
  match mv with Settle i _ => i | Tick i => i end.




(** The aggregate as the specification describes it: how each input is
    settled by now, the values of the inputs whose fulfillment has been
    delivered and the reasons of those whose rejection has been delivered,
    each with the index of its input, in the order of delivery. *)
Record progress : Type := Progress {
  now : list (option attempt);
  got : list (nat * val);
  lost : list (nat * val)
}.

Definition delivered_indices (g : progress) : list nat :=
  (fst <$> got g) ++ (fst <$> lost g).

(** Input [i], when settled and not yet delivered, is delivered. *)
Definition deliver (i : nat) (g : progress) : progress :=
  if decide (i ∈ delivered_indices g) then g
  else match now g !!! i with
       | None => g
       | Some (Fulfil v) => Progress (now g) (got g ++ [(i, v)]) (lost g)
       | Some (Refuse e) => Progress (now g) (got g) (lost g ++ [(i, e)])
       end.

(** A settlement attempt takes effect on a pending input only; both moves
    deliver the input when it is settled. *)
Definition advance (g : progress) (mv : move) : progress :=
  match mv with
  | Settle i a =>
    deliver i (match now g !!! i with
               | None => Progress (<[i := Some a]> (now g)) (got g) (lost g)
               | Some _ => g
               end)
  | Tick i => deliver i g
  end.





(** [var f = new Promise(...); var q = new Promise(...); var all =
    Promise.all([f, q])] on two pending instances. *)
Definition two_joined : state :=
  state_after (all (sem demo 2) [VPromise 0; VPromise 1]) two_pending.




(** [var f = new Promise(function () { }); var q = Promise.reject('x');] *)
Definition pending_and_rejected : state :=
  state_after (Promise_reject (sem demo 4) (VStr "x")) one_pending.

(** [var f = Promise.resolve(1); var q = Promise.resolve(2);] *)
Definition two_fulfilled : state :=
  state_after (Promise_resolve (sem demo 4) (VNum 2))
    (state_after (Promise_resolve (sem demo 4) (VNum 1)) empty_state).

(** *** Values by what reading their [then] gives *)

(** The values [resolvePromise] stores as they are: no Promise instance,
    and either neither object nor function, or with a [then] that can be
    read and is not callable. *)
Definition plain (v : val) : bool :=
  negb (isPromise v) &&
  (negb (isObject v || isFunction v) ||
   match read_then v with
   | inl t => negb (isFunction t)
   | inr _ => false
   end).

(** The call by which a thenable's [then] performs the attempt [a] on the
    instance being resolved: [fr] is the activation of [resolvePromise]
    whose two closures it was given. *)
Definition thenable_call (fr : nat) (a : attempt) : action :=
  match a with
  | Fulfil value => Call (VFunction (ThenableResolve fr)) [value]
  | Refuse reason => Call (VFunction (ThenableReject fr)) [reason]
  end.

(** [var f = Promise.reject('no')] *)
Definition one_rejected : state :=
  state_after (Promise_reject (sem demo 4) (VStr "no")) empty_state.

(** [var f = Promise.resolve(7); var q = new Promise(function () { })] *)
Definition fulfilled_and_pending : state :=
  state_after (new_Promise (sem demo 2) (VFunction (User 2))) one_fulfilled.

(** Two pending instances [f] and [q], and [f.then(function (x) { return x; })]. *)
Definition pair_waiting : state :=
  state_after (then_ (sem demo 2) 0 (VFunction (User 0)) VUndefined) two_pending.

(** * Properties *)

(** ** The store *)

Lemma get_update_eq p f s :
  p < length (heap s) -> get p (update p f s) = f (get p s).
Proof. intros H. unfold get, update. simpl. by rewrite list_lookup_total_insert_eq. Qed.

Lemma get_update_ne p q f s :
  p <> q -> get q (update p f s) = get q s.
Proof. intros H. unfold get, update. simpl. by rewrite list_lookup_total_insert_ne. Qed.

Lemma get_update p q f s :
  get q (update p f s) = if decide (p = q /\ p < length (heap s)) then f (get p s) else get q s.
Proof. unfold get, update. simpl. by rewrite list_lookup_total_insert. Qed.

Lemma length_heap_update p f s : length (heap (update p f s)) = length (heap s).
Proof. unfold update. simpl. by rewrite length_insert. Qed.

Lemma get_alloc_old p o s :
  p < length (heap s) -> get p (set_heap (heap s ++ [o]) s) = get p s.
Proof. intros H. unfold get. simpl. by rewrite lookup_total_app_l. Qed.

Lemma get_alloc_new o s :
  get (length (heap s)) (set_heap (heap s ++ [o]) s) = o.
Proof.
  unfold get. simpl. rewrite lookup_total_app_r by lia.
  by rewrite Nat.sub_diag.
Qed.

Lemma get_beyond p s :
  length (heap s) <= p -> get p s = Instance STATUS_PENDING VUndefined VUndefined [].
Proof.
  intros H. unfold get. rewrite list_lookup_total_alt.
  by rewrite (lookup_ge_None_2 _ _ H).
Qed.

Lemma update_beyond p f s :
  length (heap s) <= p -> update p f s = set_heap (heap s) s.
Proof. intros H. unfold update. by rewrite list_insert_ge. Qed.

Lemma set_heap_same s : set_heap (heap s) s = s.
Proof. by destruct s. Qed.

(** ** Relations that every computation of the module preserves *)

Section Preservation.

Variable user : nat -> list val -> body.
Variable R : state -> state -> Prop.
Hypothesis HR : admissible R.

Lemma preserves_ret {A} (a : A) : preserves R (ret a).
Proof. intros s. apply (adm_refl R HR). Qed.

Lemma preserves_throw {A} e : preserves R (@throw A e).
Proof. intros s. apply (adm_refl R HR). Qed.

Lemma preserves_modify f : (forall s, R s (f s)) -> preserves R (modify f).
Proof. intros H s. apply H. Qed.

Lemma holds_at_bind {A B} (m : M A) (k : A -> M B) s :
  holds_at R m s -> (forall a, preserves R (k a)) -> holds_at R (bind m k) s.
Proof.
  unfold holds_at, bind. intros Hm Hk.
  destruct (m s) as [a s1|e s1|]; [|done..].
  specialize (Hk a s1). unfold holds_at in Hk.
  destruct (k a s1); [| |done]; eapply (adm_trans R HR); eauto.
Qed.

Lemma preserves_bind {A B} (m : M A) (k : A -> M B) :
  preserves R m -> (forall a, preserves R (k a)) -> preserves R (bind m k).
Proof. intros Hm Hk s. by apply holds_at_bind. Qed.

Lemma preserves_try {A} (m : M A) (h : val -> M A) :
  preserves R m -> (forall e, preserves R (h e)) -> preserves R (try_catch m h).
Proof.
  intros Hm Hh s. unfold holds_at, try_catch. specialize (Hm s). unfold holds_at in Hm.
  destruct (m s) as [a s1|e s1|]; [done| |done].
  specialize (Hh e s1). unfold holds_at in Hh.
  destruct (h e s1); [| |done]; eapply (adm_trans R HR); eauto.
Qed.

(** [let* x := gets f in k x] inspects the state it runs in. *)
Lemma preserves_gets_bind {A B} (f : state -> A) (k : A -> M B) :
  (forall s, holds_at R (k (f s)) s) -> preserves R (bind (gets f) k).
Proof. intros H s. apply H. Qed.

Lemma preserves_rejectPromise p e : preserves R (rejectPromise p e).
Proof.
  apply preserves_gets_bind. intros s. unfold holds_at.
  destruct (p_status (get p s)) eqn:E; simpl; try apply (adm_refl R HR).
  by apply (adm_reject R HR).
Qed.

Lemma preserves_nextTick fn : preserves R (nextTick fn).
Proof. apply preserves_modify. intros s. apply (adm_ticks R HR). Qed.

Lemma preserves_record e : preserves R (record e).
Proof. apply preserves_modify. intros s. apply (adm_log R HR). Qed.

Lemma preserves_push_reaction p item : preserves R (push_reaction p item).
Proof. apply preserves_modify. intros s. apply (adm_push R HR). Qed.

Lemma preserves_new_frame p : preserves R (new_frame p).
Proof. intros s. apply (adm_frames R HR). Qed.

Lemma preserves_get_frame c : preserves R (get_frame c).
Proof. intros s. apply (adm_refl R HR). Qed.

Lemma preserves_put_frame c f : preserves R (put_frame c f).
Proof. apply preserves_modify. intros s. apply (adm_frames R HR). Qed.

Section Step.

Variable rec : ops.
Hypothesis Hrec : ops_preserve R rec.

Lemma preserves_new_Promise executor : preserves R (new_Promise rec executor).
Proof.
  apply preserves_gets_bind. intros s.
  apply holds_at_bind; [|intros; apply preserves_ret].
  unfold Promise_init. destruct (isFunction executor); [|apply preserves_throw].
  apply holds_at_bind.
  - unfold holds_at, write_initial, modify.
    destruct (decide _); [lia|]. apply (adm_alloc R HR).
  - intros _. apply preserves_bind; [apply Hrec|intros; apply preserves_ret].
Qed.

Lemma preserves_then me onFulfilled onRejected :
  preserves R (then_ rec me onFulfilled onRejected).
Proof.
  apply preserves_bind; [apply preserves_new_Promise|]. intros result.
  apply preserves_bind; [apply preserves_push_reaction|]. intros _.
  apply preserves_gets_bind. intros s.
  destruct (p_status (get me s)).
  - apply preserves_ret.
  - apply preserves_bind; [apply preserves_nextTick|intros; apply preserves_ret].
  - apply preserves_bind; [apply preserves_nextTick|intros; apply preserves_ret].
Qed.

Lemma preserves_flush p : preserves R (flush rec p).
Proof. apply Hrec. Qed.

Lemma preserves_flush_promises_body l : preserves R (flush_promises_body rec l).
Proof.
  destruct l as [|p l]; [apply preserves_ret|].
  apply preserves_gets_bind. intros s.
  destruct (p_status (get p s)); try apply Hrec;
    (apply preserves_bind; [apply Hrec|intros; apply Hrec]).
Qed.

(** What [flush] does with one element of the list. *)
Lemma preserves_delivery o item p :
  preserves R
    (match select o item with
     | Some (func, param) =>
       try_catch
         (let* x := call rec func [param] in resolvePromise rec (item_promise item) x)
         (fun e => rejectPromise (item_promise item) e)
     | None => adoptPromise rec (item_promise item) p
     end).
Proof.
  destruct (select o item) as [[func param]|]; [|apply Hrec].
  apply preserves_try; [|intros; apply preserves_rejectPromise].
  apply preserves_bind; [apply Hrec|intros; apply Hrec].
Qed.

Lemma preserves_flush_list_body p l : preserves R (flush_list_body rec p l).
Proof.
  apply preserves_gets_bind. intros s.
  destruct (p_list (get p s)) as [|item rest] eqn:E; [apply preserves_ret|].
  apply holds_at_bind.
  { unfold holds_at, write_list, modify. by eapply (adm_shift R HR). }
  intros _. apply preserves_gets_bind. intros s1.
  apply preserves_bind; [apply preserves_delivery|intros; apply Hrec].
Qed.

Lemma preserves_adoptPromise_body source target :
  preserves R (adoptPromise_body rec source target).
Proof.
  apply preserves_gets_bind. intros s.
  destruct (p_status (get target s)).
  - apply preserves_bind; [apply preserves_then|intros; apply preserves_ret].
  - apply Hrec.
  - apply preserves_rejectPromise.
Qed.

Lemma preserves_thenable_failed p fr b e : preserves R (thenable_failed p fr b e).
Proof.
  apply preserves_bind; [apply preserves_get_frame|]. intros f.
  destruct (_ && _); [|apply preserves_ret].
  apply preserves_bind; [apply preserves_rejectPromise|intros; apply preserves_ret].
Qed.

(** Once [then] is callable, [isProcessed] is true however the call ends. *)
Lemma thenable_call_processed p fr then_ s b s' :
  try_catch
    (call rec then_ [VFunction (ThenableResolve fr); VFunction (ThenableReject fr)] >> ret true)
    (thenable_failed p fr true) s = Return b s' -> b = true.
Proof.
  unfold try_catch, bind, ret.
  destruct (call rec then_ _ s) as [a s1|e s1|]; [congruence| |done].
  unfold thenable_failed, bind, get_frame, gets, ret.
  destruct (_ && _).
  - destruct (rejectPromise p e s1); congruence.
  - congruence.
Qed.

Lemma preserves_resolvePromise_body p value :
  preserves R (resolvePromise_body rec p value).
Proof.
  apply preserves_gets_bind. intros s.
  destruct (p_status (get p s)) eqn:E; try apply preserves_ret.
  assert (Hplain : isPromise value = false ->
    holds_at R (let* isProcessed :=
        if isObject value || isFunction value then
          let* fr := new_frame p in
          match read_then value with
          | inr e => thenable_failed p fr false e
          | inl then_ =>
            if isFunction then_ then
              try_catch
                (call rec then_ [VFunction (ThenableResolve fr); VFunction (ThenableReject fr)] >>
                 ret true)
                (thenable_failed p fr true)
            else ret false
          end
        else ret false in
      if isProcessed then ret tt else write_fulfilled p value) s).
  { intros Hv. destruct (isObject value || isFunction value).
    2:{ unfold holds_at. simpl. by apply (adm_fulfil R HR). }
    unfold holds_at, bind at 1 2, new_frame.
    set (s2 := set_frames _ s). set (fr := length (frames s)).
    assert (R s s2) as Hs2 by apply (adm_frames R HR).
    assert (p_status (get p s2) = STATUS_PENDING) as E2 by done.
    assert (holds_at R (write_fulfilled p value) s2) as Hw.
    { unfold holds_at. simpl. by apply (adm_fulfil R HR). }
    assert (forall m : M bool, holds_at R m s2 ->
              (forall b s', m s2 = Return b s' -> b = false -> s' = s2) ->
              match (let* b := m in if b then ret tt else write_fulfilled p value) s2 with
              | Return _ s' => R s s' | Throw _ s' => R s s' | Diverge => True end) as Hk.
    { intros m Hm Hb. unfold holds_at, bind in *.
      destruct (m s2) as [b s3|e s3|] eqn:Em; [| by eapply (adm_trans R HR) | done].
      destruct b; simpl; [by eapply (adm_trans R HR)|].
      rewrite (Hb false s3 eq_refl eq_refl). simpl in Hw.
      by eapply (adm_trans R HR). }
    destruct (read_then value) as [then_|e].
    - destruct (isFunction then_).
      + apply Hk.
        * apply preserves_try; [|intros; apply preserves_thenable_failed].
          apply preserves_bind; [apply Hrec|intros; apply preserves_ret].
        * intros b s' Hb ->. by apply thenable_call_processed in Hb.
      + apply Hk; [apply preserves_ret|]. unfold ret. congruence.
    - apply Hk; [apply preserves_thenable_failed|].
      unfold thenable_failed, bind, get_frame, gets, ret.
      intros b s'. destruct (_ && _); [|congruence].
      destruct (rejectPromise p e s2); congruence. }
  destruct value; try (by apply Hplain).
  destruct (decide _); [apply preserves_throw|apply Hrec].
Qed.

Lemma preserves_all_onFulfilled env index value :
  preserves R (all_onFulfilled rec env index value).
Proof.
  apply preserves_gets_bind. intros s.
  apply preserves_bind; [apply preserves_modify; intros; apply (adm_arrays R HR)|]. intros _.
  apply preserves_bind; [apply preserves_modify; intros; apply (adm_envs R HR)|]. intros _.
  destruct (decide _); [|apply preserves_ret].
  apply preserves_bind; [apply Hrec|intros; apply preserves_flush].
Qed.

Lemma preserves_all_onRejected env index reason :
  preserves R (all_onRejected rec env index reason).
Proof.
  apply preserves_gets_bind. intros s.
  apply preserves_bind; [apply preserves_rejectPromise|intros; apply preserves_flush].
Qed.

Lemma preserves_run_actions l : preserves R (run_actions rec l).
Proof.
  induction l as [|[callee args] l IH]; [apply preserves_ret|].
  simpl. apply preserves_bind; [apply Hrec|intros; apply IH].
Qed.

Lemma preserves_call_body f args : preserves R (call_body user rec f args).
Proof.
  destruct f as [| | | | | | | |f]; try apply preserves_throw.
  destruct f; simpl.
  - apply preserves_ret.
  - apply preserves_bind; [apply preserves_record|]. intros _.
    apply preserves_bind; [apply preserves_run_actions|]. intros _.
    destruct (completes _); [apply preserves_ret|apply preserves_throw].
  - apply preserves_bind; [apply Hrec|]. intros _.
    apply preserves_bind; [apply preserves_flush|intros; apply preserves_ret].
  - apply preserves_bind; [apply preserves_rejectPromise|]. intros _.
    apply preserves_bind; [apply preserves_flush|intros; apply preserves_ret].
  - apply preserves_bind; [apply Hrec|intros; apply preserves_ret].
  - apply preserves_bind; [apply preserves_rejectPromise|intros; apply preserves_ret].
  - apply preserves_bind; [apply preserves_get_frame|]. intros f.
    destruct (isResolved f); [apply preserves_ret|].
    apply preserves_bind; [apply preserves_put_frame|]. intros _.
    apply preserves_bind; [apply Hrec|intros; apply preserves_ret].
  - apply preserves_bind; [apply preserves_get_frame|]. intros f.
    destruct (isRejected f); [apply preserves_ret|].
    apply preserves_bind; [apply preserves_put_frame|]. intros _.
    apply preserves_bind; [apply preserves_rejectPromise|intros; apply preserves_ret].
  - apply preserves_bind; [apply preserves_all_onFulfilled|intros; apply preserves_ret].
  - apply preserves_bind; [apply preserves_all_onRejected|intros; apply preserves_ret].
  - apply preserves_bind; [apply preserves_flush|intros; apply preserves_ret].
Qed.

Lemma preserves_all_register env index promises :
  preserves R (all_register rec env index promises).
Proof.
  revert index. induction promises as [|v promises IH]; intros index; [apply preserves_ret|].
  assert (forall r : val + val,
    preserves R (match r with
      | inl m => call rec m [VFunction (AllFulfilled env index); VFunction (AllRejected env index)] >>
                 all_register rec env (S index) promises
      | inr e => throw e end)) as Hother.
  { intros [m|e]; [|apply preserves_throw].
    apply preserves_bind; [apply Hrec|intros; apply IH]. }
  destruct v; cbn [all_register]; try apply Hother.
  apply preserves_bind; [apply preserves_then|intros; apply IH].
Qed.

Lemma preserves_all promises : preserves R (all rec promises).
Proof.
  apply preserves_bind; [apply preserves_new_Promise|]. intros result.
  apply preserves_bind; [intros s; apply (adm_arrays R HR)|]. intros a.
  apply preserves_bind; [intros s; apply (adm_envs R HR)|]. intros env.
  apply preserves_bind; [apply preserves_all_register|intros; apply preserves_ret].
Qed.

Lemma step_preserves : ops_preserve R (step user rec).
Proof.
  split; simpl.
  - apply preserves_call_body.
  - apply preserves_resolvePromise_body.
  - apply preserves_adoptPromise_body.
  - apply preserves_flush_promises_body.
  - apply preserves_flush_list_body.
Qed.

End Step.

Theorem sem_preserves n : ops_preserve R (sem user n).
Proof.
  induction n as [|n IH]; [by split|]. by apply step_preserves.
Qed.

End Preservation.

(** ** Three admissible relations *)

Lemma stable_admissible : admissible stable.
Proof.
  split; unfold stable.
  - done.
  - intros s1 s2 s3 H12 H23 p Hp. rewrite <- (H12 p Hp).
    apply H23. specialize (H12 p Hp). unfold settlement in H12. congruence.
  - intros p v s Hp _ q Hq. rewrite get_update_ne; [done|congruence].
  - intros p e s Hp q Hq. rewrite get_update_ne; [done|congruence].
  - intros p item s q Hq. rewrite get_update. by destruct (decide _) as [[-> _]|].
  - intros p item rest s _ q Hq. rewrite get_update. by destruct (decide _) as [[-> _]|].
  - intros s q Hq. rewrite get_alloc_old; [done|].
    destruct (decide (q < length (heap s))); [done|].
    rewrite get_beyond in Hq by lia. done.
  - done.
  - done.
  - done.
  - done.
  - done.
Qed.

Lemma log_grows_admissible : admissible log_grows.
Proof.
  split; unfold log_grows; simpl;
    try (intros; exists []; by rewrite app_nil_r).
  - intros s1 s2 s3 [l1 H1] [l2 H2]. exists (l1 ++ l2). by rewrite H2, H1, app_assoc.
  - intros e s. by exists [e].
Qed.

Lemma get_alloc p o s :
  get p (set_heap (heap s ++ [o]) s) =
  if decide (p < length (heap s)) then get p s
  else if decide (p = length (heap s)) then o
  else Instance STATUS_PENDING VUndefined VUndefined [].
Proof.
  destruct (decide _); [by apply get_alloc_old|].
  destruct (decide _) as [->|]; [by apply get_alloc_new|].
  apply get_beyond. simpl. rewrite length_app. simpl. lia.
Qed.

Lemma keeps_heap_ok_admissible : admissible keeps_heap_ok.
Proof.
  split; unfold keeps_heap_ok, heap_ok.
  - done.
  - eauto.
  - intros p v s Hp Hv H q. rewrite get_update. destruct (decide _); [done|apply H].
  - intros p e s Hp H q. rewrite get_update. destruct (decide _); [done|apply H].
  - intros p item s H q. rewrite get_update. destruct (decide _) as [[-> _]|]; apply H.
  - intros p item rest s _ H q. rewrite get_update. destruct (decide _) as [[-> _]|]; apply H.
  - intros s H q. rewrite get_alloc. repeat destruct (decide _); try done. apply H.
  - done.
  - done.
  - done.
  - done.
  - done.
Qed.

(** ** Write-once settlement *)

Section Stability.

Variable user : nat -> list val -> body.

(** Whatever a call does, an instance that was settled before it keeps
    its status, value and reason. *)
Lemma call_stable n f args s :
  match call (sem user n) f args s with
  | Return _ s' => stable s s'
  | Throw _ s' => stable s s'
  | Diverge => True
  end.
Proof. apply (pres_call _ _ (sem_preserves user stable stable_admissible n)). Qed.

Lemma call_heap_ok n f args s :
  heap_ok s ->
  match call (sem user n) f args s with
  | Return _ s' => heap_ok s'
  | Throw _ s' => heap_ok s'
  | Diverge => True
  end.
Proof.
  intros H.
  pose proof (pres_call _ _ (sem_preserves user _ keeps_heap_ok_admissible n) f args s) as Hc.
  unfold holds_at, keeps_heap_ok in Hc. destruct (call _ _ _ _); auto.
Qed.

End Stability.

(** ** The constructor and [then] *)

Section Api.

Variable user : nat -> list val -> body.

Lemma new_Promise_noop n s :
  new_Promise (sem user (S n)) (VFunction Noop) s =
  Return (VPromise (length (heap s))) (set_heap (heap s ++ [fresh]) s).
Proof.
  unfold new_Promise, Promise_init, bind, gets, write_initial, modify. simpl.
  destruct (decide _); [lia|done].
Qed.

Lemma then_eq n me onFulfilled onRejected s :
  then_ (sem user (S n)) me onFulfilled onRejected s =
  Return (VPromise (length (heap s))) (after_then me onFulfilled onRejected s).
Proof.
  unfold then_, Promise, bind at 1. rewrite new_Promise_noop.
  unfold after_then, bind, push_reaction, modify, gets, nextTick, ret. simpl.
  by destruct (p_status _).
Qed.

Lemma log_after_then me onFulfilled onRejected s :
  log (after_then me onFulfilled onRejected s) = log s.
Proof. unfold after_then. by destruct (p_status _). Qed.

(** C7. [new Promise(executor)] throws the constructor's own error when
    [executor] is not callable.  When it is callable the constructor calls
    it once, with the two settlement callbacks of the new instance, and ends
    as that call ends: a value it returns is dropped, an exception it throws
    reaches the constructor's caller.  In particular an executor that
    throws without calling anything has been invoked exactly once and
    leaves the new instance pending, not rejected. *)
Theorem constructor_contract n executor s :
  let me := length (heap s) in
  let callbacks := [VFunction (SettleFulfilled me); VFunction (SettleRejected me)] in
  (isFunction executor = false ->
   new_Promise (sem user n) executor s =
     Throw (VError "Promise resolver executor is not a function.") s) /\
  (isFunction executor = true ->
   new_Promise (sem user n) executor s =
     match call (sem user n) executor callbacks (set_heap (heap s ++ [fresh]) s) with
     | Return _ s' => Return (VPromise me) s'
     | Throw e s' => Throw e s'
     | Diverge => Diverge
     end) /\
  (forall id, executor = VFunction (User id) -> actions (user id callbacks) = [] ->
   exists s',
     new_Promise (sem user (S n)) executor s =
       match completes (user id callbacks) with
       | Normal _ => Return (VPromise me) s'
       | Abrupt e => Throw e s'
       end /\
     log s' = log s ++ [Invoked id callbacks] /\
     get me s' = fresh).
Proof.
  intros me callbacks. split; [|split].
  - intros H. unfold new_Promise, Promise_init, bind, gets. by rewrite H.
  - intros H. unfold new_Promise, Promise_init, bind, gets, write_initial, modify. rewrite H.
    destruct (decide _); [lia|]. fold me. fold callbacks.
    by destruct (call _ _ _ _).
  - intros id -> Hq.
    exists (set_log (log s ++ [Invoked id callbacks]) (set_heap (heap s ++ [fresh]) s)).
    split; [|split; [done|apply get_alloc_new]].
    unfold new_Promise, Promise_init, bind, gets, write_initial, modify. simpl.
    destruct (decide _); [lia|]. fold me. fold callbacks.
    unfold bind, record, modify. rewrite Hq. simpl.
    by destruct (completes _).
Qed.


(** ** The settlement routines *)

Lemma rejectPromise_settled p e s :
  p_status (get p s) <> STATUS_PENDING -> rejectPromise p e s = Return tt s.
Proof. intros H. unfold rejectPromise, bind, gets. by destruct (p_status _). Qed.

Lemma resolvePromise_settled n p v s :
  p_status (get p s) <> STATUS_PENDING -> resolvePromise (sem user (S n)) p v s = Return tt s.
Proof. intros H. simpl. unfold resolvePromise_body, bind, gets. by destruct (p_status _). Qed.

(** C6. Once [f] is settled, any sequence of further calls of
    [resolvePromise(f, _)] and [rejectPromise(f, _)] returns normally and
    leaves the whole store, so also [f]'s status, value and reason, as it
    was. *)
Theorem settlement_idempotent n f l s :
  p_status (get f s) <> STATUS_PENDING ->
  settle_all (sem user (S n)) f l s = Return tt s /\
  settlement (get f (state_after (settle_all (sem user (S n)) f l) s)) = settlement (get f s).
Proof.
  intros H.
  assert (settle_all (sem user (S n)) f l s = Return tt s) as E.
  { induction l as [|[v|e] l IH]; [done| |]; cbn [settle_all settle]; unfold bind.
    - by rewrite resolvePromise_settled.
    - by rewrite rejectPromise_settled. }
  split; [done|]. unfold state_after. by rewrite E.
Qed.

(** The same holds for the callbacks the constructor creates, which also
    flush: whatever the reactions do, a settled instance keeps its
    settlement. *)
Lemma settle_callbacks_stable n f v s :
  p_status (get f s) <> STATUS_PENDING ->
  settlement (get f (state_after (call (sem user n) (VFunction (SettleFulfilled f)) [v]) s))
    = settlement (get f s) /\
  settlement (get f (state_after (call (sem user n) (VFunction (SettleRejected f)) [v]) s))
    = settlement (get f s).
Proof.
  intros H. unfold state_after. split.
  - pose proof (call_stable user n (VFunction (SettleFulfilled f)) [v] s) as Hc.
    destruct (call _ _ _ _); auto.
  - pose proof (call_stable user n (VFunction (SettleRejected f)) [v] s) as Hc.
    destruct (call _ _ _ _); auto.
Qed.

(** C3. [Promise.all([])] returns a new instance that is pending, has
    nothing registered and nothing scheduled: the loop that would register
    the closures settling it runs zero times. *)
Theorem all_empty_stays_pending n s :
  exists s',
    all (sem user (S n)) [] s = Return (VPromise (length (heap s))) s' /\
    heap s' = heap s ++ [fresh] /\
    get (length (heap s)) s' = fresh /\
    ticks s' = ticks s /\
    log s' = log s.
Proof.
  eexists. split.
  - unfold all, Promise, bind at 1. rewrite new_Promise_noop. reflexivity.
  - simpl. repeat split. apply get_alloc_new.
Qed.

End Api.


Lemma constructor_contract_example :
  (isFunction (VNum 3) = false /\ isFunction (VFunction (User 1)) = true /\
   actions (demo 1 [VFunction (SettleFulfilled 0); VFunction (SettleRejected 0)]) = []) /\
  new_Promise (sem demo 2) (VNum 3) empty_state =
    Throw (VError "Promise resolver executor is not a function.") empty_state /\
  exists s',
    new_Promise (sem demo 2) (VFunction (User 1)) empty_state = Throw (VStr "boom") s' /\
    log s' = [Invoked 1 [VFunction (SettleFulfilled 0); VFunction (SettleRejected 0)]] /\
    get 0 s' = fresh.
Proof.
  split; [done|].
  destruct (constructor_contract demo 1 (VNum 3) empty_state) as (Hbad & _ & _).
  destruct (constructor_contract demo 1 (VFunction (User 1)) empty_state) as (_ & _ & Hthrow).
  split; [exact (Hbad eq_refl)|].
  destruct (Hthrow 1 eq_refl eq_refl) as (s' & E & Hlog & Hget).
  exists s'. split; [exact E|]. split; [exact Hlog|exact Hget].
Defined.


Lemma settlement_idempotent_example :
  p_status (get 0 one_fulfilled) <> STATUS_PENDING /\
  settle_all (sem demo 1) 0 [Fulfil (VNum 8); Refuse (VStr "late"); Fulfil (VPromise 0)] one_fulfilled
    = Return tt one_fulfilled /\
  settlement (get 0 (state_after
     (settle_all (sem demo 1) 0 [Fulfil (VNum 8); Refuse (VStr "late"); Fulfil (VPromise 0)])
     one_fulfilled)) = settlement (get 0 one_fulfilled).
Proof.
  assert (p_status (get 0 one_fulfilled) <> STATUS_PENDING) as H by (vm_compute; discriminate).
  split; [exact H|].
  exact (settlement_idempotent demo 0 0
           [Fulfil (VNum 8); Refuse (VStr "late"); Fulfil (VPromise 0)] one_fulfilled H).
Defined.

(** C2. Resolving the pending [f] with [f] itself through the callback the
    constructor gave out: the error is thrown to the caller and [f] stays
    pending. *)
Theorem self_resolution_escapes :
  call (sem demo 3) (VFunction (SettleFulfilled 0)) [VPromise 0] one_pending
    = Throw (VError "promise and value refer to the same object.") one_pending /\
  p_status (get 0 one_pending) = STATUS_PENDING.
Proof. split; by vm_compute. Qed.

(** The sibling path: when a reaction returns its own derived instance,
    [flush] catches the same error and rejects the derived instance with it. *)
Lemma self_resolution_in_flush_rejects :
  let s := state_after (then_ (sem demo 2) 0 (VFunction (User 6)) VUndefined) one_fulfilled in
  exists s',
    run_tick demo 8 s = Return tt s' /\
    settlement (get 1 s') =
      (STATUS_REJECTED, VUndefined, VError "promise and value refer to the same object.").
Proof. eexists. split; by vm_compute. Qed.

(** A thenable that resolves [f] with [f]: the error is thrown into the
    thenable's [then], comes back to [resolvePromise], which drops it because
    [isResolved] is already set; [f] stays pending and nothing is scheduled. *)
Lemma self_resolution_by_thenable_hangs :
  exists s',
    call (sem demo 8) (VFunction (SettleFulfilled 0)) [VObject (Field (VFunction (User 7)))] one_pending
      = Return VUndefined s' /\
    get 0 s' = fresh /\ ticks s' = [].
Proof. eexists. repeat split; by vm_compute. Qed.

(** C5. A thenable whose [then] calls its first argument with the pending
    instance [q] and then its second argument with ['r']: the first call
    makes [f] wait for [q], and the second call still rejects [f]. *)
Theorem thenable_second_call_wins :
  exists s',
    call (sem demo 8) (VFunction (SettleFulfilled 0)) [VObject (Field (VFunction (User 3)))] two_pending
      = Return VUndefined s' /\
    settlement (get 0 s') = (STATUS_REJECTED, VUndefined, VStr "r") /\
    p_list (get 1 s') = [Reaction (VFunction (AdoptFulfilled 0)) (VFunction (AdoptRejected 0)) 2] /\
    frames s' = [Frame true true 0].
Proof. eexists. repeat split; by vm_compute. Qed.

(** When the first call settles [f] at once, later calls find it settled. *)
Lemma thenable_first_call_wins_when_plain :
  exists s',
    call (sem demo 8) (VFunction (SettleFulfilled 0)) [VObject (Field (VFunction (User 5)))] one_pending
      = Return VUndefined s' /\
    settlement (get 0 s') = (STATUS_FULFILLED, VNum 1, VUndefined).
Proof. eexists. split; by vm_compute. Qed.

(** ** What the module lets escape *)

(** A computation that visibly returns does not throw. *)
Ltac returns_here :=
  match goal with
  | H : throws _ |- _ => exfalso; exact H
  | |- ~ throws _ => let H := fresh in intro H; exact H
  end.

Lemma throws_bind {A B} (m : M A) (k : A -> M B) s :
  throws (bind m k s) ->
  throws (m s) \/ exists a s1, m s = Return a s1 /\ throws (k a s1).
Proof.
  unfold bind. destruct (m s) as [a s1|e s1|]; [|by left|done].
  intros H. right. by exists a, s1.
Qed.

Lemma throws_try {A} (m : M A) (h : val -> M A) s :
  throws (try_catch m h s) -> exists e s1, m s = Throw e s1 /\ throws (h e s1).
Proof.
  unfold try_catch. destruct (m s) as [a s1|e s1|]; [done| |done].
  intros H. by exists e, s1.
Qed.

Lemma rejectPromise_never_throws p e s : ~ throws (rejectPromise p e s).
Proof.
  unfold rejectPromise, bind, gets, write_rejected, modify, ret.
  destruct (p_status _); simpl; tauto.
Qed.

Lemma thenable_failed_never_throws p fr b e s : ~ throws (thenable_failed p fr b e s).
Proof.
  unfold thenable_failed. intros [H|(f & s1 & E & H)]%throws_bind; [returns_here|].
  destruct (_ && _); [|returns_here].
  apply throws_bind in H as [H|(? & ? & _ & H)]; [|returns_here].
  by apply rejectPromise_never_throws in H.
Qed.

Lemma heap_okb_ok s : heap_okb s = true -> heap_ok s.
Proof.
  unfold heap_okb, heap_ok, get. intros H p Hp.
  destruct (heap s !! p) as [o|] eqn:E.
  - rewrite (list_lookup_total_correct _ _ _ E) in *.
    rewrite forallb_forall in H. specialize (H o).
    rewrite Hp in H. apply negb_true_iff, H.
    apply list_elem_of_In. by eapply list_elem_of_lookup_2.
  - rewrite list_lookup_total_alt, E in Hp. done.
Qed.

Section Safety.

Variable user : nat -> list val -> body.

Section Step.

Variable rec : ops.
Hypothesis Hsafe : ops_safe rec.
Hypothesis Hok : ops_preserve keeps_heap_ok rec.

Lemma ok_after {A} (m : M A) s a s1 :
  preserves keeps_heap_ok m -> heap_ok s -> m s = Return a s1 -> heap_ok s1.
Proof. intros Hm Hs E. specialize (Hm s). unfold holds_at in Hm. rewrite E in Hm. auto. Qed.

Lemma then_never_throws me onFulfilled onRejected s :
  ~ throws (then_ rec me onFulfilled onRejected s).
Proof.
  unfold then_, Promise, new_Promise, Promise_init. simpl. unfold bind, gets, write_initial, modify.
  pose proof (safe_noop rec Hsafe) as Hn.
  match goal with |- context [call rec ?f ?a ?s] => specialize (Hn a s); destruct (call rec f a s) end;
    [|done..].
  unfold ret, push_reaction, modify. destruct (p_status _); done.
Qed.

Lemma adoptPromise_body_safe source target s :
  heap_ok s -> ~ throws (adoptPromise_body rec source target s).
Proof.
  intros Hs. unfold adoptPromise_body, bind at 1, gets.
  destruct (p_status (get target s)) eqn:E.
  - intros [H|(a & s1 & _ & H)]%throws_bind; [|returns_here].
    by apply then_never_throws in H.
  - intros H. apply (safe_resolvePromise rec Hsafe) in H; [|done].
    specialize (Hs target E). by rewrite H in Hs.
  - apply rejectPromise_never_throws.
Qed.

Lemma resolvePromise_body_safe p v s :
  heap_ok s -> throws (resolvePromise_body rec p v s) -> v = VPromise p.
Proof.
  intros Hs. unfold resolvePromise_body, bind at 1, gets.
  destruct (p_status (get p s)) eqn:E; [|intros; returns_here..].
  assert (forall X : M bool, (forall s', ~ throws (X s')) ->
            ~ throws ((let* isProcessed := X in
                       if isProcessed then ret tt else write_fulfilled p v) s)) as Hk.
  { intros X HX [H|(b & s1 & _ & H)]%throws_bind; [by apply HX in H|].
    destruct b; returns_here. }
  assert (forall s', ~ throws ((
        if isObject v || isFunction v then
          let* fr := new_frame p in
          match read_then v with
          | inr e => thenable_failed p fr false e
          | inl then_ =>
            if isFunction then_ then
              try_catch
                (call rec then_ [VFunction (ThenableResolve fr); VFunction (ThenableReject fr)] >>
                 ret true)
                (thenable_failed p fr true)
            else ret false
          end
        else ret false) s')) as HX.
  { intros s'. destruct (_ || _); [|returns_here].
    intros [H|(fr & s1 & _ & H)]%throws_bind; [returns_here|].
    destruct (read_then v) as [then_|e].
    - destruct (isFunction then_); [|returns_here].
      apply throws_try in H as (e & s2 & _ & H). by apply thenable_failed_never_throws in H.
    - by apply thenable_failed_never_throws in H. }
  destruct v; try (intros H; by apply Hk in H).
  destruct (decide _) as [->|]; [done|].
  intros H. by apply (safe_adoptPromise rec Hsafe) in H.
Qed.

Lemma flush_promises_body_safe l s :
  heap_ok s -> ~ throws (flush_promises_body rec l s).
Proof.
  intros Hs. destruct l as [|p l]; [returns_here|].
  unfold flush_promises_body, bind at 1, gets.
  assert (~ throws ((let* promises := flush_list rec p l in flush_promises rec promises) s)) as H.
  { intros [H|(l' & s1 & E & H)]%throws_bind.
    - by apply (safe_flush_list rec Hsafe) in H.
    - apply (safe_flush_promises rec Hsafe) in H; [done|].
      eapply (ok_after (flush_list rec p l)); [apply Hok|exact Hs|exact E]. }
  destruct (p_status _); [by apply (safe_flush_promises rec Hsafe)|done..].
Qed.

Lemma flush_list_body_safe p l s :
  heap_ok s -> ~ throws (flush_list_body rec p l s).
Proof.
  intros Hs. unfold flush_list_body, bind at 1, gets.
  destruct (p_list (get p s)) as [|item rest] eqn:E; [returns_here|].
  unfold bind at 1, write_list, modify, bind at 1, gets.
  set (s0 := update p _ s).
  assert (heap_ok s0) as Hs0.
  { by apply (adm_shift _ keeps_heap_ok_admissible p item rest s E). }
  intros [H|([] & s1 & E1 & H)]%throws_bind.
  - destruct (select (get p s0) item) as [[func param]|].
    + apply throws_try in H as (e & s1 & _ & H). by apply rejectPromise_never_throws in H.
    + by apply (safe_adoptPromise rec Hsafe) in H.
  - apply (safe_flush_list rec Hsafe) in H; [done|].
    eapply ok_after; [|exact Hs0|exact E1].
    apply (preserves_delivery _ keeps_heap_ok_admissible rec Hok).
Qed.

Lemma step_safe : ops_safe (step user rec).
Proof.
  split; simpl.
  - intros args s H. exact H.
  - apply resolvePromise_body_safe.
  - apply adoptPromise_body_safe.
  - apply flush_promises_body_safe.
  - apply flush_list_body_safe.
Qed.

End Step.

Theorem sem_safe n : ops_safe (sem user n).
Proof.
  induction n as [|n IH].
  { split; simpl.
    - intros args s H. exact H.
    - intros p v s _ H. destruct H.
    - intros p q s _ H. exact H.
    - intros l s _ H. exact H.
    - intros p l s _ H. exact H. }
  apply step_safe; [done|]. apply sem_preserves, keeps_heap_ok_admissible.
Qed.

End Safety.

(** ** Running the module on observers *)

Lemma select_settlement o o' item :
  settlement o = settlement o' -> select o item = select o' item.
Proof. unfold settlement, select. intros [= -> -> ->]. done. Qed.

Lemma primitive_cases v :
  primitive v -> v = VUndefined \/ (exists n, v = VNum n) \/ (exists t, v = VStr t).
Proof. intros [H1 H2]. destruct v; try discriminate; eauto. Qed.

Lemma rejectPromise_pending p e s :
  p_status (get p s) = STATUS_PENDING ->
  rejectPromise p e s = Return tt (update p (reject_with e) s).
Proof. intros H. unfold rejectPromise, bind, gets. by rewrite H. Qed.

Section Exec.

Variable user : nat -> list val -> body.

Lemma call_observer m id args s :
  1 <= m -> actions (user id args) = [] ->
  call (sem user m) (VFunction (User id)) args s =
  match completes (user id args) with
  | Normal v => Return v (set_log (log s ++ [Invoked id args]) s)
  | Abrupt e => Throw e (set_log (log s ++ [Invoked id args]) s)
  end.
Proof.
  intros Hm Hq. destruct m as [|m]; [lia|]. simpl.
  unfold bind, record, modify. rewrite Hq. simpl. by destruct (completes _).
Qed.

Lemma resolvePromise_primitive m p v s :
  1 <= m -> p_status (get p s) = STATUS_PENDING -> primitive v ->
  resolvePromise (sem user m) p v s = Return tt (update p (fulfil_with v) s).
Proof.
  intros Hm Hp Hv. destruct m as [|m]; [lia|]. simpl.
  unfold resolvePromise_body, bind at 1, gets. rewrite Hp.
  destruct (primitive_cases v Hv) as [->|[[k ->]|[t ->]]]; reflexivity.
Qed.

Lemma adoptPromise_settled m source target s :
  2 <= m ->
  p_status (get target s) <> STATUS_PENDING ->
  p_status (get source s) = STATUS_PENDING ->
  (p_status (get target s) = STATUS_FULFILLED -> primitive (p_value (get target s))) ->
  adoptPromise (sem user m) source target s =
  Return tt (update source
               (match p_status (get target s) with
                | STATUS_FULFILLED => fulfil_with (p_value (get target s))
                | _ => reject_with (p_reason (get target s))
                end) s).
Proof.
  intros Hm Ht Hs Hv. destruct m as [|m]; [lia|]. simpl.
  unfold adoptPromise_body, bind at 1, gets.
  destruct (p_status (get target s)); [done| |].
  - apply resolvePromise_primitive; [lia|done|auto].
  - by apply rejectPromise_pending.
Qed.

(** One element of the list, delivered to an observer. *)
Lemma delivery_observed m o o' item p s :
  2 <= m ->
  settlement o' = settlement o ->
  settlement (get p s) = settlement o ->
  p_status o <> STATUS_PENDING ->
  observed user o item ->
  p_status (get (item_promise item) s) = STATUS_PENDING ->
  match select o' item with
  | Some (func, param) =>
    try_catch
      (let* x := call (sem user m) func [param] in
       resolvePromise (sem user m) (item_promise item) x)
      (fun e => rejectPromise (item_promise item) e)
  | None => adoptPromise (sem user m) (item_promise item) p
  end s = Return tt (delivered user o item s).
Proof.
  intros Hm Ho' Hp Hst Hobs Hd.
  rewrite (select_settlement o' o item Ho').
  unfold delivered, observed, derived_as, invocation in *.
  destruct (select o item) as [[func param]|] eqn:Es.
  - destruct func as [| | | | | | | |[]]; try done.
    destruct Hobs as [Hq Hc].
    unfold try_catch, bind. rewrite call_observer by (done || lia).
    destruct (completes (user id [param])) as [x|e].
    + by rewrite resolvePromise_primitive by (done || lia).
    + by rewrite rejectPromise_pending.
  - unfold settlement in Hp. injection Hp as H1 H2 H3.
    rewrite adoptPromise_settled; [|done|congruence|done|].
    + rewrite H1, H2, H3, app_nil_r.
      destruct (p_status o); [done| |]; f_equal; by destruct s.
    + rewrite H1, H2. done.
Qed.

End Exec.

(** ** The two loops of [flush] on observers *)

Lemma get_set_log q l s : get q (set_log l s) = get q s.
Proof. done. Qed.

Lemma get_delivered_ne user o item q s :
  q <> item_promise item -> get q (delivered user o item s) = get q s.
Proof. intros H. unfold delivered. rewrite get_update_ne by done. done. Qed.

Lemma get_delivered_eq user o item s :
  item_promise item < length (heap s) ->
  get (item_promise item) (delivered user o item s) =
  derived_as user o item (get (item_promise item) s).
Proof. intros H. unfold delivered. by rewrite get_update_eq. Qed.

Lemma p_list_derived_as user o item d : p_list (derived_as user o item d) = p_list d.
Proof.
  unfold derived_as. destruct (select o item) as [[[| | | | | | | |[]] param]|]; try done.
  - by destruct (completes _).
  - by destruct (p_status o).
Qed.

Lemma p_list_delivered user o item q s :
  p_list (get q (delivered user o item s)) = p_list (get q s).
Proof.
  unfold delivered. rewrite get_update. destruct (decide _) as [[-> _]|]; [|done].
  by rewrite p_list_derived_as.
Qed.

Lemma length_heap_delivered user o item s :
  length (heap (delivered user o item s)) = length (heap s).
Proof. unfold delivered. by rewrite length_heap_update. Qed.

Lemma log_delivered user o item s :
  log (delivered user o item s) = log s ++ invocation o item.
Proof. done. Qed.

Lemma log_deliveries user p o items s :
  log (deliveries user p o items s) = log s ++ flat_map (invocation o) items.
Proof.
  revert s. induction items as [|item rest IH]; intros s; simpl.
  - by rewrite app_nil_r.
  - rewrite IH, log_delivered. simpl. by rewrite app_assoc.
Qed.

Lemma length_heap_deliveries user p o items s :
  length (heap (deliveries user p o items s)) = length (heap s).
Proof.
  revert s. induction items as [|item rest IH]; intros s; simpl; [done|].
  by rewrite IH, length_heap_delivered, length_heap_update.
Qed.

Lemma p_list_deliveries user p o items q s :
  q <> p -> p_list (get q (deliveries user p o items s)) = p_list (get q s).
Proof.
  intros Hq. revert s. induction items as [|item rest IH]; intros s; simpl; [done|].
  by rewrite IH, p_list_delivered, get_update_ne.
Qed.

Lemma get_deliveries_other user p o items q s :
  q <> p -> q ∉ (item_promise <$> items) ->
  get q (deliveries user p o items s) = get q s.
Proof.
  intros Hq. revert s. induction items as [|item rest IH]; intros s Hn; simpl; [done|].
  simpl in Hn. apply not_elem_of_cons in Hn as [Hn1 Hn2].
  by rewrite IH, get_delivered_ne, get_update_ne.
Qed.

Lemma get_deliveries_self user p o items s :
  p < length (heap s) -> p ∉ (item_promise <$> items) ->
  get p (deliveries user p o items s) =
  match items with [] => get p s | _ => with_list [] (get p s) end.
Proof.
  revert s. induction items as [|item rest IH]; intros s Hp Hn; simpl; [done|].
  simpl in Hn. apply not_elem_of_cons in Hn as [Hn1 Hn2].
  rewrite IH; [|by rewrite length_heap_delivered, length_heap_update|done].
  rewrite !get_delivered_ne, !get_update_eq by done.
  by destruct rest.
Qed.

Lemma get_deliveries_derived user p o items item s :
  item ∈ items -> NoDup ((item_promise <$> items)) ->
  item_promise item <> p -> item_promise item < length (heap s) ->
  get (item_promise item) (deliveries user p o items s) =
  derived_as user o item (get (item_promise item) s).
Proof.
  revert s. induction items as [|item' rest IH]; intros s Hin Hnd Hp Hlt; [by apply elem_of_nil in Hin|].
  simpl in *. apply NoDup_cons in Hnd as [Hn Hnd].
  apply elem_of_cons in Hin as [->|Hin].
  - rewrite get_deliveries_other by done.
    rewrite get_delivered_eq by by rewrite length_heap_update.
    by rewrite get_update_ne.
  - rewrite IH; [|done..|by rewrite length_heap_delivered, length_heap_update].
    rewrite get_delivered_ne, get_update_ne; [done|done|].
    intros E. apply Hn. rewrite <- E. by apply list_elem_of_fmap_2.
Qed.

Section Loops.

Variable user : nat -> list val -> body.

Lemma flush_list_empty m p promises s :
  1 <= m -> p_list (get p s) = [] ->
  flush_list (sem user m) p promises s = Return promises s.
Proof.
  intros Hm Hl. destruct m as [|m]; [lia|]. simpl.
  unfold flush_list_body, bind, gets. by rewrite Hl.
Qed.

(** The inner loop, on a list of observers whose derived instances are
    still pending. *)
Lemma flush_list_observed items : forall m p o promises s,
  length items + 3 <= m ->
  p < length (heap s) ->
  settlement (get p s) = settlement o ->
  p_status o <> STATUS_PENDING ->
  p_list (get p s) = items ->
  Forall (fun item => observed user o item /\ item_promise item <> p /\
                      p_status (get (item_promise item) s) = STATUS_PENDING) items ->
  NoDup ((item_promise <$> items)) ->
  flush_list (sem user m) p promises s =
  Return (promises ++ (item_promise <$> items)) (deliveries user p o items s).
Proof.
  induction items as [|item rest IH]; intros m p o promises s Hm Hp Ho Hst Hl Hall Hnd.
  - simpl. rewrite app_nil_r. apply flush_list_empty; [simpl in Hm; lia|done].
  - destruct m as [|m]; [simpl in Hm; lia|]. simpl in Hm.
    apply Forall_cons in Hall as [(Hobs & Hne & Hpend) Hall].
    simpl in Hnd. apply NoDup_cons in Hnd as [Hnin Hnd].
    cbn [sem step flush_list]. unfold flush_list_body, bind at 1, gets. rewrite Hl.
    unfold bind at 1, write_list, modify. unfold bind at 1, gets.
    change (update p _ s) with (update p (with_list rest) s).
    set (s0 := update p (with_list rest) s).
    assert (get p s0 = with_list rest (get p s)) as Hp0 by by apply get_update_eq.
    unfold bind at 1.
    rewrite (delivery_observed user m o (get p s0) item p s0); [|lia|..].
    2:{ by rewrite Hp0. }
    2:{ by rewrite Hp0. }
    2:{ done. }
    2:{ done. }
    2:{ unfold s0. by rewrite get_update_ne. }
    rewrite (IH m p o); [|lia|..].
    + simpl. by rewrite <- app_assoc.
    + rewrite length_heap_delivered. unfold s0. by rewrite length_heap_update.
    + rewrite get_delivered_ne by done. by rewrite Hp0.
    + done.
    + rewrite get_delivered_ne by done. by rewrite Hp0.
    + rewrite Forall_forall in Hall |- *. intros item' Hin.
      destruct (Hall item' Hin) as (H1 & H2 & H3). repeat split; [done..|].
      rewrite get_delivered_ne; [unfold s0; by rewrite get_update_ne|].
      intros E. apply Hnin. rewrite <- E. by apply list_elem_of_fmap_2.
    + done.
Qed.

(** The outer loop, on instances that have nothing registered. *)
Lemma flush_promises_idle l : forall m s,
  length l + 2 <= m ->
  Forall (fun q => p_list (get q s) = []) l ->
  flush_promises (sem user m) l s = Return tt s.
Proof.
  induction l as [|q l IH]; intros m s Hm Hall.
  - destruct m as [|m]; [simpl in Hm; lia|]. done.
  - destruct m as [|m]; [simpl in Hm; lia|]. simpl in Hm.
    apply Forall_cons in Hall as [Hq Hall].
    cbn [sem step flush_promises]. unfold flush_promises_body, bind at 1, gets.
    destruct (p_status (get q s)).
    + apply IH; [lia|done].
    + unfold bind. rewrite flush_list_empty by (lia || done). apply IH; [lia|done].
    + unfold bind. rewrite flush_list_empty by (lia || done). apply IH; [lia|done].
Qed.

(** [flush] on a settled instance whose reactions are observers with
    fresh derived instances. *)
Lemma flush_observed m p o s :
  length (p_list (get p s)) + 4 <= m ->
  p < length (heap s) ->
  settlement (get p s) = settlement o ->
  p_status o <> STATUS_PENDING ->
  Forall (fun item => observed user o item /\ item_promise item <> p /\
                      get (item_promise item) s = fresh) (p_list (get p s)) ->
  NoDup ((item_promise <$> p_list (get p s))) ->
  flush (sem user m) p s = Return tt (deliveries user p o (p_list (get p s)) s).
Proof.
  intros Hm Hp Ho Hst Hall Hnd.
  destruct m as [|m]; [lia|].
  unfold flush. cbn [sem step flush_promises]. unfold flush_promises_body, bind at 1, gets.
  assert (p_status (get p s) = p_status o) as Hs by (unfold settlement in Ho; congruence).
  assert ((let* promises := flush_list (sem user m) p [] in flush_promises (sem user m) promises) s
          = Return tt (deliveries user p o (p_list (get p s)) s)) as E.
  { unfold bind. rewrite (flush_list_observed (p_list (get p s)) m p o); [|lia|done..| |done].
    - simpl. apply flush_promises_idle; [rewrite length_fmap; lia|].
      apply Forall_forall. intros q Hq.
      apply list_elem_of_fmap in Hq as (item & -> & Hin).
      destruct (proj1 (Forall_forall _ _) Hall item Hin) as (_ & Hne & Hf).
      rewrite p_list_deliveries by done. by rewrite Hf.
    - eapply Forall_impl; [exact Hall|]. simpl. intros item (H1 & H2 & H3).
      by rewrite H3. }
  rewrite Hs. destruct (p_status o); [done|exact E|exact E].
Qed.

End Loops.

(** ** The reaction list is a queue *)




(** ** Registration followed by settlement *)






Lemma after_then_pending p onFulfilled onRejected s :
  p < length (heap s) -> p_status (get p s) = STATUS_PENDING ->
  after_then p onFulfilled onRejected s =
  update p (with_list (p_list (get p s) ++ [Reaction onFulfilled onRejected (length (heap s))]))
    (set_heap (heap s ++ [fresh]) s).
Proof.
  intros Hp Hs. unfold after_then.
  rewrite get_update_eq by (simpl; rewrite length_app; simpl; lia).
  rewrite get_alloc_old by done. simpl. rewrite Hs.
  unfold update. f_equal. by rewrite get_alloc_old.
Qed.



Section Order.

Variable user : nat -> list val -> body.


(** The callbacks of the constructor on a pending instance, for a
    primitive value or any reason: settle, then flush. *)
Lemma settling_eq m p a s :
  2 <= m -> p_status (get p s) = STATUS_PENDING ->
  (forall v, a = Fulfil v -> primitive v) ->
  call (sem user m) (settling p a).1 [(settling p a).2] s =
  (flush (sem user (m - 1)) p >> ret VUndefined) (update p (settled_by a) s).
Proof.
  intros Hm Hs Ha. destruct m as [|m]; [lia|].
  replace (S m - 1) with m by lia.
  destruct a as [v|e]; simpl; unfold bind at 1.
  - rewrite resolvePromise_primitive by (lia || auto). done.
  - rewrite rejectPromise_pending by done. done.
Qed.

(** What [flush] leaves behind on a settled instance whose reactions are
    observers with fresh derived instances. *)
Lemma flush_observed_facts m p o s :
  length (p_list (get p s)) + 4 <= m ->
  p < length (heap s) ->
  settlement (get p s) = settlement o ->
  p_status o <> STATUS_PENDING ->
  Forall (fun item => observed user o item /\ item_promise item <> p /\
                      item_promise item < length (heap s) /\
                      get (item_promise item) s = fresh) (p_list (get p s)) ->
  NoDup (item_promise <$> p_list (get p s)) ->
  exists s',
    flush (sem user m) p s = Return tt s' /\
    log s' = log s ++ flat_map (invocation o) (p_list (get p s)) /\
    p_list (get p s') = [] /\
    settlement (get p s') = settlement (get p s) /\
    forall item, item ∈ p_list (get p s) ->
      get (item_promise item) s' = derived_as user o item fresh.
Proof.
  intros Hm Hp Ho Hst Hall Hnd.
  exists (deliveries user p o (p_list (get p s)) s).
  assert (p ∉ item_promise <$> p_list (get p s)) as Hnp.
  { intros (item & E & Hin)%list_elem_of_fmap.
    destruct (proj1 (Forall_forall _ _) Hall item Hin) as (_ & Hne & _). congruence. }
  split; [|split; [|split; [|split]]].
  - apply flush_observed; [done..| |done].
    eapply Forall_impl; [exact Hall|]. simpl. tauto.
  - apply log_deliveries.
  - rewrite get_deliveries_self by done. by destruct (p_list (get p s)) eqn:E.
  - rewrite get_deliveries_self by done. by destruct (p_list (get p s)) eqn:E.
  - intros item Hin.
    destruct (proj1 (Forall_forall _ _) Hall item Hin) as (_ & Hne & Hlt & Hf).
    rewrite get_deliveries_derived by done. by rewrite Hf.
Qed.






(** C9. [flush] never throws, whatever the reactions do.  On a list of
    observers it returns normally after invoking every one of them: the
    derived instance of an observer that throws [e] is rejected with [e],
    those of the others are settled as their callbacks say, and the list is
    empty.  And for any callback: when the callback selected for the first
    element of the list throws [e] while the derived instance is pending,
    the loop rejects the derived instance with [e] and goes on with the rest
    of the list and the derived instance at the end of the worklist. *)
Theorem callback_failure_is_local p s :
  heap_ok s ->
  (forall n, ~ throws (flush (sem user n) p s)) /\
  (forall m o,
     length (p_list (get p s)) + 4 <= m ->
     p < length (heap s) ->
     settlement (get p s) = settlement o ->
     p_status o <> STATUS_PENDING ->
     Forall (fun item => observed user o item /\ item_promise item <> p /\
                         item_promise item < length (heap s) /\
                         get (item_promise item) s = fresh) (p_list (get p s)) ->
     NoDup (item_promise <$> p_list (get p s)) ->
     exists s',
       flush (sem user m) p s = Return tt s' /\
       log s' = log s ++ flat_map (invocation o) (p_list (get p s)) /\
       p_list (get p s') = [] /\
       (forall item, item ∈ p_list (get p s) ->
          get (item_promise item) s' = derived_as user o item fresh) /\
       (forall item id param e, item ∈ p_list (get p s) ->
          select o item = Some (VFunction (User id), param) ->
          completes (user id [param]) = Abrupt e ->
          settlement (get (item_promise item) s') = (STATUS_REJECTED, VUndefined, e))) /\
  (forall n promises item rest func param e s1,
     p_list (get p s) = item :: rest ->
     select (get p s) item = Some (func, param) ->
     call (sem user n) func [param] (update p (with_list rest) s) = Throw e s1 ->
     p_status (get (item_promise item) s1) = STATUS_PENDING ->
     flush_list (sem user (S n)) p promises s =
     flush_list (sem user n) p (promises ++ [item_promise item])
       (update (item_promise item) (reject_with e) s1)).
Proof.
  intros Hok. split; [|split].
  - intros n. by apply (safe_flush_promises _ (sem_safe user n)).
  - intros m o Hm Hp Ho Hst Hall Hnd.
    destruct (flush_observed_facts m p o s Hm Hp Ho Hst Hall Hnd) as (s' & E & Hlog & Hl & _ & Hd).
    exists s'. repeat split; try done.
    intros item id param e Hin Hsel Hc. rewrite (Hd item Hin).
    unfold derived_as. by rewrite Hsel, Hc.
  - intros n promises item rest func param e s1 Hl Hsel Hcall Hpend.
    cbn [sem step flush_list]. unfold flush_list_body, bind at 1, gets. rewrite Hl.
    unfold bind at 1, write_list, modify. unfold bind at 1, gets.
    change (update p _ s) with (update p (with_list rest) s).
    rewrite (select_settlement _ (get p s)).
    2:{ rewrite get_update. destruct (decide _); [by destruct (get p s)|done]. }
    rewrite Hsel. unfold bind at 1, try_catch, bind at 1. rewrite Hcall.
    by rewrite rejectPromise_pending.
Qed.

End Order.



Lemma callback_failure_is_local_example :
  heap_ok three_waiting /\
  ~ throws (flush (sem demo 8) 0 three_waiting) /\
  exists s',
    flush (sem demo 8) 0 three_waiting = Return tt s' /\
    log s' = log three_waiting ++ [Invoked 1 [VNum 7]; Invoked 0 [VNum 7]; Invoked 4 [VNum 7]] /\
    p_list (get 0 s') = [] /\
    settlement (get 1 s') = (STATUS_REJECTED, VUndefined, VStr "boom") /\
    settlement (get 2 s') = (STATUS_FULFILLED, VNum 7, VUndefined) /\
    settlement (get 3 s') = (STATUS_FULFILLED, VNum 8, VUndefined).
Proof.
  assert (heap_ok three_waiting) as Hok by (apply heap_okb_ok; reflexivity).
  split; [exact Hok|].
  destruct (callback_failure_is_local demo 0 three_waiting Hok) as (Ha & Hb & _).
  split; [apply Ha|].
  destruct (Hb 8 (get 0 three_waiting)) as (s' & E & Hlog & Hl & Hd & _).
  - vm_compute. lia.
  - vm_compute. lia.
  - reflexivity.
  - discriminate.
  - repeat apply Forall_cons_2; try apply Forall_nil_2; vm_compute; repeat split; (lia || done).
  - vm_compute. apply (bool_decide_unpack _). by vm_compute.
  - exists s'. split; [exact E|]. split; [exact Hlog|]. split; [exact Hl|].
    split; [|split].
    + change (get 1 s') with (get (item_promise (Reaction (VFunction (User 1)) VUndefined 1)) s').
      by rewrite Hd by (vm_compute; repeat constructor).
    + change (get 2 s') with (get (item_promise (Reaction (VFunction (User 0)) VUndefined 2)) s').
      by rewrite Hd by (vm_compute; repeat constructor).
    + change (get 3 s') with (get (item_promise (Reaction (VFunction (User 4)) VUndefined 3)) s').
      by rewrite Hd by (vm_compute; repeat constructor).
Defined.

(** ** [Promise.all]: what the calls do *)

Lemma heap_after_then p onFulfilled onRejected s :
  heap (after_then p onFulfilled onRejected s) =
  <[p := with_list (p_list (get p (set_heap (heap s ++ [fresh]) s)) ++
                    [Reaction onFulfilled onRejected (length (heap s))])
           (get p (set_heap (heap s ++ [fresh]) s))]> (heap s ++ [fresh]).
Proof. unfold after_then. by destruct (p_status _). Qed.

Lemma length_heap_after_then p onFulfilled onRejected s :
  length (heap (after_then p onFulfilled onRejected s)) = S (length (heap s)).
Proof. rewrite heap_after_then, length_insert, length_app. simpl. lia. Qed.

Lemma get_after_then q p onFulfilled onRejected s :
  p < length (heap s) ->
  get q (after_then p onFulfilled onRejected s) =
  if decide (q = p)
  then with_list (p_list (get p s) ++ [Reaction onFulfilled onRejected (length (heap s))]) (get p s)
  else if decide (q = length (heap s)) then fresh
  else get q s.
Proof.
  intros Hp. unfold get at 1. rewrite heap_after_then.
  rewrite get_alloc_old by done.
  rewrite list_lookup_total_insert.
  destruct (decide (q = p)) as [->|].
  - rewrite decide_True; [done|]. split; [done|]. rewrite length_app. simpl. lia.
  - rewrite decide_False by (intros [? _]; congruence).
    change ((heap s ++ [fresh]) !!! q) with (get q (set_heap (heap s ++ [fresh]) s)).
    rewrite get_alloc. destruct (decide (q < length (heap s))).
    + by rewrite decide_False by lia.
    + destruct (decide _); [done|]. symmetry. apply get_beyond. lia.
Qed.

Lemma others_after_then p onFulfilled onRejected s :
  arrays (after_then p onFulfilled onRejected s) = arrays s /\
  envs (after_then p onFulfilled onRejected s) = envs s /\
  frames (after_then p onFulfilled onRejected s) = frames s /\
  log (after_then p onFulfilled onRejected s) = log s.
Proof. unfold after_then. by destruct (p_status _). Qed.


Section AllExec.

Variable user : nat -> list val -> body.




Lemma flush_idle m p s :
  3 <= m -> p_list (get p s) = [] -> flush (sem user m) p s = Return tt s.
Proof.
  intros Hm Hl. apply flush_promises_idle; [simpl; lia|]. by apply Forall_singleton.
Qed.

(** The constructor's callbacks and the scheduled closure on an instance
    that is already settled: only the flush remains. *)
Lemma settling_settled m p a s :
  1 <= m -> p_status (get p s) <> STATUS_PENDING ->
  call (sem user m) (settling p a).1 [(settling p a).2] s =
  (flush (sem user (m - 1)) p >> ret VUndefined) s.
Proof.
  intros Hm Hs. destruct m as [|m]; [lia|]. replace (S m - 1) with m by lia.
  destruct a as [v|e]; simpl; unfold bind at 1.
  - destruct m as [|m]; [done|]. by rewrite resolvePromise_settled.
  - by rewrite rejectPromise_settled.
Qed.

Lemma tick_eq m p s :
  1 <= m ->
  call (sem user m) (VFunction (TickFlush p)) [] s =
  (flush (sem user (m - 1)) p >> ret VUndefined) s.
Proof. intros Hm. destruct m as [|m]; [lia|]. by replace (S m - 1) with m by lia. Qed.

Lemma flush_list_S m p promises :
  flush_list (sem user (S m)) p promises = flush_list_body (sem user m) p promises.
Proof. done. Qed.

Lemma flush_promises_S m promises :
  flush_promises (sem user (S m)) promises = flush_promises_body (sem user m) promises.
Proof. done. Qed.

Lemma call_S m f args : call (sem user (S m)) f args = call_body user (sem user m) f args.
Proof. done. Qed.

(** [flush] on a settled instance with a single reaction whose callback
    returns [undefined] and leaves the derived instance untouched. *)
Lemma flush_single m p item func param s s1 :
  2 <= m ->
  p < length (heap s) ->
  p <> item_promise item ->
  p_status (get p s) <> STATUS_PENDING ->
  p_list (get p s) = [item] ->
  select (get p s) item = Some (func, param) ->
  call (sem user m) func [param] (update p (with_list []) s) = Return VUndefined s1 ->
  get (item_promise item) s1 = fresh ->
  p_list (get p s1) = [] ->
  flush (sem user (S (S m))) p s =
  Return tt (update (item_promise item) (fulfil_with VUndefined) s1).
Proof.
  intros Hm Hp Hne Hst Hl Hsel Hcall Hd Hl1.
  unfold flush. rewrite flush_promises_S. unfold flush_promises_body, bind at 1, gets.
  assert ((let* promises := flush_list (sem user (S m)) p [] in
           flush_promises (sem user (S m)) promises) s
          = Return tt (update (item_promise item) (fulfil_with VUndefined) s1)) as E.
  { unfold bind at 1. rewrite flush_list_S.
    unfold flush_list_body, bind at 1, gets. rewrite Hl.
    unfold bind at 1, write_list, modify. unfold bind at 1, gets.
    change (update p _ s) with (update p (with_list []) s).
    rewrite (select_settlement _ (get p s)).
    2:{ rewrite get_update_eq by done. by destruct (get p s). }
    rewrite Hsel. unfold bind at 1, try_catch, bind at 1. rewrite Hcall.
    rewrite resolvePromise_primitive; [|lia|by rewrite Hd|by split].
    rewrite flush_list_empty; [|lia|by rewrite get_update_ne].
    apply flush_promises_idle; [simpl; lia|]. apply Forall_singleton.
    rewrite get_update. destruct (decide _); [by rewrite Hd|by rewrite Hd]. }
  destruct (p_status (get p s)); [done|exact E|exact E].
Qed.



End AllExec.

(** ** The specification's side: arrays and progress *)












(** Once every input has been delivered, nothing moves any more. *)
Lemma advance_complete k g mv :
  length (now g) = k ->
  (forall i, i < k -> i ∈ delivered_indices g) ->
  (forall i, i ∈ delivered_indices g -> now g !!! i <> None) ->
  move_index mv < k ->
  advance g mv = g.
Proof.
  intros Hn Hall Hset Hi.
  destruct mv as [i a|i]; simpl in *.
  - specialize (Hset i (Hall i Hi)).
    destruct (now g !!! i); [|done]. unfold deliver. by rewrite decide_True by auto.
  - unfold deliver. by rewrite decide_True by auto.
Qed.

(** ** The invariant of [Promise.all] *)














Section AllInv.

Variable user : nat -> list val -> body.





End AllInv.

(** ** [Promise.all] against its specification *)




Section All.

Variable user : nat -> list val -> body.



End All.

(** The two examples of the specification, with inputs that are settled
    before [Promise.all] is called: delivery waits for the host to run the
    closures handed to [nextTick]. *)
Lemma all_short_circuit_example :
  exists s1 s2,
    all (sem demo 9) [VPromise 0; VPromise 1] pending_and_rejected = Return (VPromise 2) s1 /\
    ticks s1 = [TickFlush 1] /\ get 2 s1 = fresh /\
    run_tick demo 9 s1 = Return tt s2 /\
    settlement (get 2 s2) = (STATUS_REJECTED, VUndefined, VStr "x") /\
    p_status (get 0 s2) = STATUS_PENDING.
Proof.
  do 2 eexists.
  split; [vm_compute; reflexivity|]. split; [vm_compute; reflexivity|].
  split; [vm_compute; reflexivity|]. split; [vm_compute; reflexivity|].
  split; vm_compute; reflexivity.
Qed.

Lemma all_success_example :
  exists s1 s2,
    all (sem demo 9) [VPromise 0; VPromise 1] two_fulfilled = Return (VPromise 2) s1 /\
    ticks s1 = [TickFlush 0; TickFlush 1] /\
    (run_tick demo 9 >> run_tick demo 9) s1 = Return tt s2 /\
    settlement (get 2 s2) = (STATUS_FULFILLED, VArray 0, VUndefined) /\
    arrays s2 !!! 0 = [Some (VNum 1); Some (VNum 2)].
Proof.
  do 2 eexists.
  split; [vm_compute; reflexivity|]. split; [vm_compute; reflexivity|].
  split; [vm_compute; reflexivity|]. split; vm_compute; reflexivity.
Qed.


(** * Further properties of the module *)

(** ** What no call can undo *)

Lemma state_after_preserves (R : state -> state -> Prop) {A} (m : M A) s :
  admissible R -> preserves R m -> R s (state_after m s).
Proof.
  intros HR Hm. specialize (Hm s). unfold holds_at in Hm. unfold state_after.
  destruct (m s); auto. apply (adm_refl R HR).
Qed.

Lemma preserves_run_tick user (R : state -> state -> Prop) n :
  admissible R -> (forall t s, R s (set_ticks t s)) -> preserves R (run_tick user n).
Proof.
  intros HR Ht s. unfold holds_at, run_tick.
  destruct (ticks s) as [|fn rest]; [apply (adm_refl R HR)|].
  pose proof (pres_call R _ (sem_preserves user R HR n) (VFunction fn) [] (set_ticks rest s)) as Hc.
  unfold holds_at in Hc. unfold bind.
  destruct (call _ _ _ _); [| |done]; simpl; eapply (adm_trans R HR); eauto.
Qed.

Section Final.

Variable user : nat -> list val -> body.


(** X2. No instance is ever fulfilled with a Promise instance as its value:
    a state in which that holds is left in a state in which it holds, by
    every function value, by [then], by [Promise.all] and by the host
    running a scheduled closure.  (The empty store is such a state.) *)
Theorem fulfilled_value_is_never_a_promise n s :
  heap_ok s ->
  (forall f args, heap_ok (state_after (call (sem user n) f args) s)) /\
  (forall me onFulfilled onRejected,
     heap_ok (state_after (then_ (sem user n) me onFulfilled onRejected) s)) /\
  (forall promises, heap_ok (state_after (all (sem user n) promises) s)) /\
  heap_ok (state_after (run_tick user n) s).
Proof.
  intros Hs.
  pose proof (sem_preserves user keeps_heap_ok keeps_heap_ok_admissible n) as Hn.
  assert (forall A (m : M A), preserves keeps_heap_ok m -> heap_ok (state_after m s)) as Hm.
  { intros A m Hpres.
    by apply (state_after_preserves keeps_heap_ok m s keeps_heap_ok_admissible Hpres). }
  split; [|split; [|split]].
  - intros f args. apply Hm, Hn.
  - intros me onFulfilled onRejected.
    by apply Hm, preserves_then; [apply keeps_heap_ok_admissible|].
  - intros promises. by apply Hm, preserves_all; [apply keeps_heap_ok_admissible|].
  - apply Hm, preserves_run_tick; [apply keeps_heap_ok_admissible|]. by intros t s0 H.
Qed.

Lemma all_register_never_throws n ps : forall env index s,
  ~ throws (all_register (sem user n) env index (VPromise <$> ps) s).
Proof.
  induction ps as [|p ps IH]; intros env index s; [intros H; exact H|].
  rewrite fmap_cons. cbn [all_register].
  intros [H|(r & s1 & _ & H)]%throws_bind.
  - by apply (then_never_throws _ (sem_safe user n)) in H.
  - by apply IH in H.
Qed.

(** X3. What reaches the caller as an exception.  From a state of the
    module, the callback [function (value) { resolvePromise(me, value);
    flush(me); }] throws only when it is given [me] itself; the rejecting
    callback, the closure handed to [nextTick], the closures of
    [Promise.all], [then] (with any arguments) and [Promise.all] on Promise
    instances never throw, whatever the registered reactions do. *)
Theorem only_self_resolution_is_thrown n s :
  heap_ok s ->
  (forall me args,
     throws (call (sem user n) (VFunction (SettleFulfilled me)) args s) -> arg0 args = VPromise me) /\
  (forall me args, ~ throws (call (sem user n) (VFunction (SettleRejected me)) args s)) /\
  (forall me args, ~ throws (call (sem user n) (VFunction (TickFlush me)) args s)) /\
  (forall env index args,
     ~ throws (call (sem user n) (VFunction (AllFulfilled env index)) args s)) /\
  (forall env index args,
     ~ throws (call (sem user n) (VFunction (AllRejected env index)) args s)) /\
  (forall me onFulfilled onRejected,
     ~ throws (then_ (sem user n) me onFulfilled onRejected s)) /\
  (forall ps, ~ throws (all (sem user n) (VPromise <$> ps) s)).
Proof.
  intros Hs.
  assert (forall me onFulfilled onRejected s0,
            ~ throws (then_ (sem user n) me onFulfilled onRejected s0)) as Hthen.
  { intros. apply then_never_throws, sem_safe. }
  assert (forall ps s0, ~ throws (all (sem user n) (VPromise <$> ps) s0)) as Hall.
  { intros ps s0. unfold all.
    intros [H|(r & s1 & _ & H)]%throws_bind.
    { unfold Promise in H. apply throws_bind in H as [H|(? & ? & _ & H)]; [exact H|].
      apply throws_bind in H as [H|(? & ? & _ & H)]; [|exact H].
      unfold Promise_init in H. simpl in H.
      apply throws_bind in H as [H|(? & ? & _ & H)]; [exact H|].
      apply throws_bind in H as [H|(? & ? & _ & H)]; [|exact H].
      by apply (safe_noop _ (sem_safe user n)) in H. }
    apply throws_bind in H as [H|(a & s2 & _ & H)]; [exact H|].
    apply throws_bind in H as [H|(env & s3 & _ & H)]; [exact H|].
    apply throws_bind in H as [H|(? & ? & _ & H)]; [|exact H].
    by apply all_register_never_throws in H. }
  destruct n as [|n].
  { repeat split; try done; intros; intros H; exact H. }
  pose proof (sem_safe user n) as Hsafe.
  pose proof (sem_preserves user keeps_heap_ok keeps_heap_ok_admissible n) as Hok.
  assert (forall p s0, heap_ok s0 -> ~ throws (flush (sem user n) p s0)) as Hflush.
  { intros p s0 H0. by apply (safe_flush_promises _ Hsafe). }
  assert (forall p s0, heap_ok s0 ->
            ~ throws ((flush (sem user n) p >> ret VUndefined) s0)) as Hflush'.
  { intros p s0 H0 [H|(? & ? & _ & H)]%throws_bind; [by apply Hflush in H|exact H]. }
  split; [|split; [|split; [|split; [|split; [|split]]]]]; try done.
  - intros me args. rewrite call_S. cbn [call_body].
    intros [H|([] & s1 & E & H)]%throws_bind.
    + by apply (safe_resolvePromise _ Hsafe) in H.
    + exfalso. apply Hflush' in H; [done|].
      by apply (ok_after (resolvePromise (sem user n) me (arg0 args)) s tt s1); [apply Hok|..].
  - intros me args. rewrite call_S. cbn [call_body].
    intros [H|([] & s1 & E & H)]%throws_bind.
    + by apply rejectPromise_never_throws in H.
    + apply Hflush' in H; [done|].
      by apply (ok_after (rejectPromise me (arg0 args)) s tt s1);
        [apply preserves_rejectPromise, keeps_heap_ok_admissible|..].
  - intros me args. rewrite call_S. cbn [call_body]. by apply Hflush'.
  - intros env index args. rewrite call_S. cbn [call_body].
    intros [H|(? & ? & _ & H)]%throws_bind; [|exact H].
    unfold all_onFulfilled in H.
    apply throws_bind in H as [H|(e & s0 & [= <- <-] & H)]; [exact H|].
    apply throws_bind in H as [H|([] & s1 & [= <-] & H)]; [exact H|].
    apply throws_bind in H as [H|([] & s2 & [= <-] & H)]; [exact H|].
    destruct (decide _); [|exact H].
    apply throws_bind in H as [H|([] & s3 & E & H)].
    + by apply (safe_resolvePromise _ Hsafe) in H.
    + apply Hflush in H; [done|].
      by eapply (ok_after (resolvePromise (sem user n) _ _)); [apply Hok| |exact E].
  - intros env index args. rewrite call_S. cbn [call_body].
    intros [H|(? & ? & _ & H)]%throws_bind; [|exact H].
    unfold all_onRejected in H.
    apply throws_bind in H as [H|(e & s0 & [= <- <-] & H)]; [exact H|].
    apply throws_bind in H as [H|([] & s3 & E & H)].
    + by apply rejectPromise_never_throws in H.
    + apply Hflush in H; [done|].
      by eapply (ok_after (rejectPromise _ _));
        [apply preserves_rejectPromise, keeps_heap_ok_admissible| |exact E].
Qed.

End Final.

(** ** Resolution by the kind of value *)

Lemma frame_just_pushed (l : list frame) f : (l ++ [f]) !!! length l = f.
Proof. by apply list_lookup_total_middle. Qed.

Section Values.

Variable user : nat -> list val -> body.

Lemma resolvePromise_plain m p v s :
  p_status (get p s) = STATUS_PENDING ->
  plain v = true ->
  exists s',
    resolvePromise (sem user (S m)) p v s = Return tt s' /\
    heap s' = heap (update p (fulfil_with v) s) /\
    log s' = log s /\ ticks s' = ticks s.
Proof.
  intros Hp Hv. cbn [sem step resolvePromise].
  unfold resolvePromise_body, bind at 1, gets. rewrite Hp.
  destruct v as [| | | | | | |[|t|]|]; try discriminate Hv;
    try (eexists; split; [reflexivity|done]).
  destruct t; try discriminate Hv; eexists; (split; [reflexivity|done]).
Qed.

(** X4. [resolvePromise] on a pending instance and a value that is no
    Promise instance and has no callable [then] (a number, a string,
    [undefined], a function, an array, an Error object, an object whose
    [then] is missing or is not a function) fulfils the instance with that
    very value and changes no other instance; nothing is called and nothing
    is scheduled. *)
Theorem plain_value_fulfils m p v s :
  p < length (heap s) ->
  p_status (get p s) = STATUS_PENDING ->
  plain v = true ->
  exists s',
    resolvePromise (sem user (S m)) p v s = Return tt s' /\
    settlement (get p s') = (STATUS_FULFILLED, v, p_reason (get p s)) /\
    (forall q, q <> p -> get q s' = get q s) /\
    log s' = log s /\ ticks s' = ticks s.
Proof.
  intros Hlt Hp Hv.
  destruct (resolvePromise_plain m p v s Hp Hv) as (s' & E & Hh & Hl & Ht).
  exists s'. split; [exact E|]. split; [|split; [|done]].
  - unfold get. rewrite Hh.
    change (settlement (get p (update p (fulfil_with v) s))
            = (STATUS_FULFILLED, v, p_reason (get p s))).
    by rewrite get_update_eq.
  - intros q Hq. unfold get. rewrite Hh.
    change (get q (update p (fulfil_with v) s) = get q s). by rewrite get_update_ne.
Qed.

(** X5. When reading [value.then] throws ([value] is [null], whose
    [typeof] is ['object'], or an object whose [then] is a getter that
    throws), [resolvePromise] catches the exception and rejects the pending
    instance with it; so resolving with [null] rejects. *)
Theorem unreadable_then_rejects m p v e s :
  p_status (get p s) = STATUS_PENDING ->
  isObject v = true ->
  read_then v = inr e ->
  exists s',
    resolvePromise (sem user (S m)) p v s = Return tt s' /\
    heap s' = heap (update p (reject_with e) s) /\
    log s' = log s /\ ticks s' = ticks s.
Proof.
  intros Hp Ho Hr. cbn [sem step resolvePromise].
  unfold resolvePromise_body, bind at 1, gets. rewrite Hp.
  assert (forall s0 : state,
            p_status (get p (set_frames (frames s ++ [Frame false false p]) s)) = STATUS_PENDING)
    as Hp' by (intros; exact Hp).
  destruct v as [| | | | | | |[|t|]|]; try discriminate Ho; try discriminate Hr;
    injection Hr as <-; simpl; unfold bind, new_frame, thenable_failed, bind, get_frame, gets;
    simpl; rewrite frame_just_pushed; simpl; unfold bind;
    rewrite rejectPromise_pending by exact Hp; eexists; (split; [reflexivity|done]).
Qed.

(** X6. A thenable whose [then] calls neither of the two functions it is
    given: when it throws [e], the pending instance is rejected with [e];
    when it returns, the returned value is dropped and the instance stays
    pending.  [then] was invoked exactly once. *)
Theorem thenable_that_calls_nothing m p id s :
  let callbacks := [VFunction (ThenableResolve (length (frames s)));
                    VFunction (ThenableReject (length (frames s)))] in
  p_status (get p s) = STATUS_PENDING ->
  actions (user id callbacks) = [] ->
  exists s',
    resolvePromise (sem user (S (S m))) p (VObject (Field (VFunction (User id)))) s
      = Return tt s' /\
    log s' = log s ++ [Invoked id callbacks] /\
    heap s' = match completes (user id callbacks) with
              | Normal _ => heap s
              | Abrupt e => heap (update p (reject_with e) s)
              end.
Proof.
  intros callbacks Hp Hq.
  change (resolvePromise (sem user (S (S m)))) with (resolvePromise_body (sem user (S m))).
  unfold resolvePromise_body, bind at 1, gets. rewrite Hp. simpl isObject. simpl read_then.
  cbn [orb isFunction]. unfold bind at 1. unfold bind at 1, new_frame.
  unfold try_catch, bind at 1.
  rewrite call_observer by (exact Hq || lia). fold callbacks.
  destruct (completes (user id callbacks)) as [x|e].
  - eexists. split; [reflexivity|done].
  - unfold thenable_failed, bind at 1, get_frame, gets.
    cbn [frames set_log set_frames]. rewrite frame_just_pushed. simpl. unfold bind at 1.
    rewrite rejectPromise_pending by exact Hp. eexists. split; [reflexivity|done].
Qed.

(** Calls of the two closures of an activation whose instance is settled:
    nothing changes but the flags. *)
Lemma thenable_later_calls n fr p later : forall s,
  p_status (get p s) <> STATUS_PENDING ->
  fr < length (frames s) ->
  f_promise (frames s !!! fr) = p ->
  isResolved (frames s !!! fr) || isRejected (frames s !!! fr) = true ->
  exists s',
    run_actions (sem user (S (S n))) (thenable_call fr <$> later) s = Return tt s' /\
    heap s' = heap s /\ log s' = log s /\ ticks s' = ticks s /\
    fr < length (frames s') /\ f_promise (frames s' !!! fr) = p /\
    isResolved (frames s' !!! fr) || isRejected (frames s' !!! fr) = true.
Proof.
  induction later as [|a later IH]; intros s Hp Hfr Hf Hflag.
  { exists s. by repeat split. }
  rewrite fmap_cons. cbn [run_actions]. unfold bind at 1.
  assert (exists s1, call (sem user (S (S n))) (match thenable_call fr a with Call c _ => c end)
                       (match thenable_call fr a with Call _ args => args end) s
                     = Return VUndefined s1 /\
                     heap s1 = heap s /\ log s1 = log s /\ ticks s1 = ticks s /\
                     fr < length (frames s1) /\ f_promise (frames s1 !!! fr) = p /\
                     isResolved (frames s1 !!! fr) || isRejected (frames s1 !!! fr) = true)
    as (s1 & E & H1 & H2 & H3 & H4 & H5 & H6).
  { destruct a as [v|e]; cbn [thenable_call]; rewrite call_S; cbn [call_body];
      unfold bind at 1, get_frame, gets.
    - change (arg0 [v]) with v.
      destruct (isResolved (frames s !!! fr)) eqn:Er; [exists s; by rewrite Er|].
      unfold bind at 1, put_frame, modify. unfold bind at 1. rewrite Hf.
      rewrite resolvePromise_settled by exact Hp.
      eexists. split; [reflexivity|]. simpl.
      rewrite length_insert, list_lookup_total_insert_eq by done. done.
    - change (arg0 [e]) with e.
      destruct (isRejected (frames s !!! fr)) eqn:Er; [exists s; by rewrite Er|].
      unfold bind at 1, put_frame, modify. unfold bind at 1. rewrite Hf.
      rewrite rejectPromise_settled by exact Hp.
      eexists. split; [reflexivity|]. simpl.
      rewrite length_insert, list_lookup_total_insert_eq by done.
      simpl. by rewrite orb_true_r. }
  destruct (thenable_call fr a) as [c args]. rewrite E.
  destruct (IH s1) as (s' & E' & G1 & G2 & G3 & G4 & G5 & G6); [|done|done|done|].
  { unfold get. rewrite H1. exact Hp. }
  exists s'. split; [exact E'|]. repeat split; congruence.
Qed.

(** X7. A thenable whose [then] first calls one of the two functions it
    is given, with a primitive value or with a reason, and then calls them
    again any number of times with anything: the first call settles the
    pending instance, the later calls and the way [then] ends (returning or
    throwing) change nothing. *)
Theorem thenable_first_settlement_wins m p id a later s :
  let fr := length (frames s) in
  let callbacks := [VFunction (ThenableResolve fr); VFunction (ThenableReject fr)] in
  p < length (heap s) ->
  p_status (get p s) = STATUS_PENDING ->
  (forall v, a = Fulfil v -> primitive v) ->
  actions (user id callbacks) = thenable_call fr a :: (thenable_call fr <$> later) ->
  exists s',
    resolvePromise (sem user (4 + m)) p (VObject (Field (VFunction (User id)))) s
      = Return tt s' /\
    heap s' = heap (update p (settled_by a) s) /\
    log s' = log s ++ [Invoked id callbacks].
Proof.
  intros fr callbacks Hlt Hp Ha Hq.
  change (resolvePromise (sem user (4 + m))) with (resolvePromise_body (sem user (3 + m))).
  unfold resolvePromise_body, bind at 1, gets. rewrite Hp. simpl isObject. simpl read_then.
  cbn [orb isFunction]. unfold bind at 1. unfold bind at 1, new_frame.
  unfold try_catch, bind at 1. fold fr. fold callbacks.
  change (call (sem user (3 + m))) with (call_body user (sem user (2 + m))).
  cbn [call_body]. unfold bind at 1, record, modify. unfold bind at 1. rewrite Hq.
  cbn [run_actions]. unfold bind at 1.
  set (s0 := set_log _ (set_frames _ s)).
  assert (frames s0 !!! fr = Frame false false p) as Hf0 by apply frame_just_pushed.
  assert (exists s1, call (sem user (2 + m)) (match thenable_call fr a with Call c _ => c end)
                       (match thenable_call fr a with Call _ args => args end) s0
                     = Return VUndefined s1 /\
                     heap s1 = heap (update p (settled_by a) s) /\
                     log s1 = log s0 /\
                     fr < length (frames s1) /\ f_promise (frames s1 !!! fr) = p /\
                     isResolved (frames s1 !!! fr) || isRejected (frames s1 !!! fr) = true)
    as (s1 & E & H1 & H2 & H4 & H5 & H6).
  { assert (fr < length (frames s0)) as Hfr.
    { unfold s0. simpl. rewrite length_app. simpl. lia. }
    destruct a as [v|e]; cbn [thenable_call]; change (2 + m) with (S (S m));
      rewrite call_S; cbn [call_body]; unfold bind at 1, get_frame, gets; rewrite Hf0;
      cbn [isResolved isRejected f_promise].
    - change (arg0 [v]) with v.
      unfold bind at 1, put_frame, modify. unfold bind at 1.
      rewrite resolvePromise_primitive; [|lia|exact Hp|by apply Ha].
      eexists. split; [reflexivity|]. simpl.
      rewrite length_insert, list_lookup_total_insert_eq by done. done.
    - change (arg0 [e]) with e.
      unfold bind at 1, put_frame, modify. unfold bind at 1.
      rewrite rejectPromise_pending by exact Hp.
      eexists. split; [reflexivity|]. simpl.
      rewrite length_insert, list_lookup_total_insert_eq by done. done. }
  destruct (thenable_call fr a) as [c args]. rewrite E.
  destruct (thenable_later_calls m fr p later s1) as (s2 & E2 & G1 & G2 & _ & _ & _ & G6);
    [|done|done|done|].
  { unfold get. rewrite H1. change (p_status (get p (update p (settled_by a) s)) <> STATUS_PENDING).
    rewrite get_update_eq by done. by destruct a. }
  change (2 + m) with (S (S m)). rewrite E2.
  destruct (completes (user id callbacks)) as [x|e].
  - eexists. split; [reflexivity|]. split; [congruence|]. by rewrite G2, H2.
  - unfold thenable_failed, bind at 1, get_frame, gets.
    change (length (frames s)) with fr. simpl.
    destruct (isResolved (frames s2 !!! fr)), (isRejected (frames s2 !!! fr));
      try discriminate G6; simpl;
      (eexists; split; [reflexivity|]; split; [by rewrite G1, H1|]; by rewrite G2, H2).
Qed.

End Values.

(** ** [Promise.resolve], [Promise.reject] and the errors of [Promise.all] *)

Lemma update_just_allocated f (s : state) :
  update (length (heap s)) f (set_heap (heap s ++ [fresh]) s)
  = set_heap (heap s ++ [f fresh]) s.
Proof.
  unfold update. rewrite get_alloc_new. unfold set_heap. simpl. f_equal.
  rewrite insert_app_r_alt by lia. by rewrite Nat.sub_diag.
Qed.

Lemma write_initial_new (s : state) :
  write_initial (length (heap s)) s = Return tt (set_heap (heap s ++ [fresh]) s).
Proof. unfold write_initial, modify. destruct (decide _); [lia|done]. Qed.

Lemma heap_all_registered_ext ps : forall env index s s',
  heap s = heap s' ->
  heap (all_registered env index ps s) = heap (all_registered env index ps s').
Proof.
  induction ps as [|p ps IH]; intros env index s s' H; [done|].
  cbn [all_registered]. apply IH. rewrite !heap_after_then. unfold get. simpl. by rewrite H.
Qed.

Lemma log_all_registered ps : forall env index s,
  log (all_registered env index ps s) = log s.
Proof.
  induction ps as [|p ps IH]; intros env index s; [done|].
  cbn [all_registered]. rewrite IH. apply others_after_then.
Qed.

Section Static.

Variable user : nat -> list val -> body.

(** X8. [Promise.reject(reason)] returns a new instance that is rejected
    with [reason], whatever [reason] is (also a Promise instance, which is
    not unwrapped), with nothing registered; no other part of the store
    changes, nothing is called and nothing is scheduled. *)
Theorem Promise_reject_creates_rejected m reason s :
  Promise_reject (sem user (4 + m)) reason s =
  Return (VPromise (length (heap s)))
    (set_heap (heap s ++ [Instance STATUS_REJECTED VUndefined reason []]) s).
Proof.
  unfold Promise_reject, bind at 1, gets. unfold bind at 1. rewrite write_initial_new.
  unfold bind at 1.
  change (call (sem user (4 + m)) (VFunction (SettleRejected (length (heap s)))) [reason])
    with (call (sem user (4 + m)) (settling (length (heap s)) (Refuse reason)).1
            [(settling (length (heap s)) (Refuse reason)).2]).
  rewrite settling_eq; [|lia|by rewrite get_alloc_new|discriminate].
  unfold bind at 1. rewrite flush_idle; [|simpl; lia|].
  - rewrite update_just_allocated. reflexivity.
  - rewrite update_just_allocated. by rewrite get_alloc_new.
Qed.

(** X9. [Promise.resolve(value)] with a value that is no Promise instance
    and has no callable [then] returns a new instance fulfilled with that
    value, with nothing registered; the other instances, the log and the
    scheduled closures are unchanged. *)
Theorem Promise_resolve_creates_fulfilled m v s :
  plain v = true ->
  exists s',
    Promise_resolve (sem user (5 + m)) v s = Return (VPromise (length (heap s))) s' /\
    heap s' = heap s ++ [Instance STATUS_FULFILLED v VUndefined []] /\
    log s' = log s /\ ticks s' = ticks s.
Proof.
  intros Hv.
  unfold Promise_resolve, bind at 1, gets. unfold bind at 1. rewrite write_initial_new.
  unfold bind at 1. change (5 + m) with (S (4 + m)). rewrite call_S. cbn [call_body].
  unfold bind at 1. change (arg0 [v]) with v. change (4 + m) with (S (3 + m)).
  destruct (resolvePromise_plain user (3 + m) (length (heap s)) v
              (set_heap (heap s ++ [fresh]) s)) as (s1 & E & Hh & Hl & Ht);
    [by rewrite get_alloc_new|exact Hv|].
  rewrite E. rewrite update_just_allocated in Hh. simpl in Hh.
  unfold bind at 1. rewrite flush_idle; [|simpl; lia|].
  - exists s1. by repeat split.
  - unfold get. rewrite Hh.
    change (p_list (get (length (heap s))
              (set_heap (heap s ++ [fulfil_with v fresh]) s)) = []).
    by rewrite get_alloc_new.
Qed.

Lemma all_register_prefix ps : forall m env index tail s,
  all_register (sem user (S m)) env index ((VPromise <$> ps) ++ tail) s =
  all_register (sem user (S m)) env (index + length ps) tail (all_registered env index ps s).
Proof.
  induction ps as [|p ps IH]; intros m env index tail s.
  { simpl. by rewrite Nat.add_0_r. }
  rewrite fmap_cons. cbn [app all_register all_registered]. unfold bind at 1.
  rewrite then_eq. rewrite IH. cbn [length].
  by replace (S index + length ps) with (index + S (length ps)) by lia.
Qed.

(** X10. [Promise.all] on an array that holds, after the Promise instances
    [ps], an element that is no Promise instance and has no callable [then]
    throws: the error of reading [then] when the element is [undefined],
    [null] or has a throwing getter, the error of calling something that is
    no function otherwise.  The aggregate instance stays allocated and
    pending and the reactions registered on [ps] stay registered: the heap
    is the one [Promise.all(ps)] leaves. *)
Theorem all_throws_at_element_without_then m ps v rest s :
  isPromise v = false ->
  (forall f, read_then v <> inl (VFunction f)) ->
  exists e s',
    all (sem user (S m)) ((VPromise <$> ps) ++ v :: rest) s = Throw e s' /\
    match read_then v with
    | inr e' => e = e'
    | inl _ => e = VError "is not a function"
    end /\
    heap s' = heap (after_all ps s) /\
    log s' = log s.
Proof.
  intros Hv Ht.
  unfold all, Promise, bind at 1. rewrite new_Promise_noop.
  unfold bind at 1. unfold bind at 1. unfold bind at 1.
  rewrite all_register_prefix.
  set (s0 := all_registered _ _ _ _).
  assert (heap s0 = heap (after_all ps s)) as Hh.
  { unfold s0, after_all. by apply heap_all_registered_ext. }
  assert (log s0 = log s) as Hl.
  { unfold s0. by rewrite log_all_registered. }
  assert (forall t, isFunction t = false -> forall args s1,
            call (sem user (S m)) t args s1 = Throw (VError "is not a function") s1) as Hcall.
  { intros t Hf args s1. rewrite call_S. by destruct t. }
  destruct v as [| | | | | | |[|t|]|]; try discriminate Hv; cbn [all_register read_then];
    try (exists (VError "is not a function"), s0; unfold bind at 1;
         rewrite Hcall by done; done);
    try (eexists _, s0; split; [reflexivity|done]).
  exists (VError "is not a function"), s0. unfold bind at 1.
  rewrite Hcall; [done|]. destruct t; try done. by destruct (Ht f).
Qed.

End Static.

(** ** Adopting another instance *)

Section Adoption.

Variable user : nat -> list val -> body.

Lemma resolvePromise_pending_promise m p q s :
  3 <= m -> p <> q ->
  p_status (get p s) = STATUS_PENDING ->
  p_status (get q s) = STATUS_PENDING ->
  resolvePromise (sem user m) p (VPromise q) s =
  Return tt (after_then q (VFunction (AdoptFulfilled p)) (VFunction (AdoptRejected p)) s).
Proof.
  intros Hm Hne Hp Hq. destruct m as [|[|[|m]]]; try lia.
  change (resolvePromise (sem user (S (S (S m)))))
    with (resolvePromise_body (sem user (S (S m)))).
  unfold resolvePromise_body, bind at 1, gets. rewrite Hp.
  destruct (decide (p = q)); [done|].
  change (adoptPromise (sem user (S (S m)))) with (adoptPromise_body (sem user (S m))).
  unfold adoptPromise_body, bind at 1, gets. rewrite Hq.
  unfold bind at 1. by rewrite then_eq.
Qed.

(** The two closures [adoptPromise] registers, called by [flush] with a
    primitive value or a reason. *)
Lemma call_adopting m p a s :
  2 <= m -> p_status (get p s) = STATUS_PENDING ->
  (forall v, a = Fulfil v -> primitive v) ->
  call (sem user m)
    (match a with
     | Fulfil _ => VFunction (AdoptFulfilled p)
     | Refuse _ => VFunction (AdoptRejected p)
     end)
    [match a with Fulfil v => v | Refuse e => e end] s
  = Return VUndefined (update p (settled_by a) s).
Proof.
  intros Hm Hp Ha. destruct m as [|m]; [lia|]. rewrite call_S.
  destruct a as [v|e]; cbn [call_body]; unfold bind at 1.
  - change (arg0 [v]) with v. rewrite resolvePromise_primitive by (lia || auto). done.
  - change (arg0 [e]) with e. by rewrite rejectPromise_pending.
Qed.

(** X11. Resolving the pending [p] with another pending instance [q]
    leaves [p] pending and registers one reaction on [q].  When [q] is
    later settled through its constructor's callback, that call settles
    [p] in the same way, but it does not run the reactions registered on
    [p]: the list of [p] is as it was, no function of the caller has been
    invoked and nothing has been handed to [nextTick]. *)
Theorem adopted_settlement_is_not_delivered m p q a s :
  6 <= m ->
  p < length (heap s) -> q < length (heap s) -> p <> q ->
  p_status (get p s) = STATUS_PENDING ->
  p_status (get q s) = STATUS_PENDING ->
  p_list (get q s) = [] ->
  (forall v, a = Fulfil v -> primitive v) ->
  exists s1 s2,
    resolvePromise (sem user m) p (VPromise q) s = Return tt s1 /\
    get p s1 = get p s /\
    p_list (get q s1) =
      [Reaction (VFunction (AdoptFulfilled p)) (VFunction (AdoptRejected p)) (length (heap s))] /\
    call (sem user m) (settling q a).1 [(settling q a).2] s1 = Return VUndefined s2 /\
    settlement (get q s2) = settlement (settled_by a (get q s)) /\
    settlement (get p s2) = settlement (settled_by a (get p s)) /\
    p_list (get p s2) = p_list (get p s) /\
    log s2 = log s /\ ticks s2 = ticks s.
Proof.
  intros Hm Hp Hq Hne Hps Hqs Hql Ha.
  set (d := length (heap s)).
  set (item := Reaction (VFunction (AdoptFulfilled p)) (VFunction (AdoptRejected p)) d).
  set (s1 := after_then q (VFunction (AdoptFulfilled p)) (VFunction (AdoptRejected p)) s).
  assert (length (heap s1) = S d) as Hlen1 by apply length_heap_after_then.
  assert (get q s1 = with_list [item] (get q s)) as Hq1.
  { unfold s1. rewrite get_after_then by done. rewrite decide_True by done. by rewrite Hql. }
  assert (get p s1 = get p s) as Hp1.
  { unfold s1. rewrite get_after_then by done.
    rewrite decide_False by done. by rewrite decide_False by (unfold d in *; lia). }
  assert (get d s1 = fresh) as Hd1.
  { unfold s1. rewrite get_after_then by done.
    rewrite decide_False by (unfold d in *; lia). by rewrite decide_True. }
  assert (log s1 = log s /\ ticks s1 = ticks s) as [Hlog1 Hticks1].
  { unfold s1. rewrite after_then_pending by done. done. }
  set (s2 := update q (settled_by a) s1).
  set (s3 := update q (with_list []) s2).
  set (s4 := update p (settled_by a) s3).
  set (s5 := update d (fulfil_with VUndefined) s4).
  assert (get q s2 = settled_by a (with_list [item] (get q s))) as Hq2.
  { unfold s2. rewrite get_update_eq by lia. by rewrite Hq1. }
  assert (p_status (get q s2) <> STATUS_PENDING) as Hq2s.
  { rewrite Hq2. by destruct a. }
  assert (get p s3 = get p s) as Hp3.
  { unfold s3, s2. by rewrite !get_update_ne. }
  exists s1, s5.
  split; [apply resolvePromise_pending_promise; (lia || done)|].
  split; [exact Hp1|]. split; [by rewrite Hq1|].
  split.
  - rewrite settling_eq; [|lia|by rewrite Hq1|done].
    fold s2. unfold bind at 1.
    destruct m as [|[|[|m]]]; try lia.
    replace (S (S (S m)) - 1) with (S (S m)) by lia.
    rewrite (flush_single user m q item
               (match a with
                | Fulfil _ => VFunction (AdoptFulfilled p)
                | Refuse _ => VFunction (AdoptRejected p)
                end)
               (match a with Fulfil v => v | Refuse e => e end) s2 s4).
    + done.
    + lia.
    + unfold s2. rewrite length_heap_update. lia.
    + simpl. unfold d in *. lia.
    + exact Hq2s.
    + rewrite Hq2. by destruct a.
    + unfold select. rewrite Hq2. by destruct a.
    + fold s3. apply call_adopting; [lia|by rewrite Hp3|done].
    + unfold s4, s3, s2. simpl item_promise.
      rewrite !get_update_ne by (unfold d in *; lia). exact Hd1.
    + unfold s4. rewrite get_update_ne by done.
      unfold s3. rewrite get_update_eq by (unfold s2; rewrite length_heap_update; lia).
      done.
  - assert (get q s5 = with_list [] (get q s2)) as Hq5.
    { unfold s5, s4. rewrite !get_update_ne by (unfold d in *; lia || done).
      unfold s3. by rewrite get_update_eq by (unfold s2; rewrite length_heap_update; lia). }
    assert (get p s5 = settled_by a (get p s)) as Hp5.
    { unfold s5. rewrite get_update_ne by (unfold d in *; lia).
      unfold s4. rewrite get_update_eq, Hp3; [done|].
      unfold s3, s2. rewrite !length_heap_update. lia. }
    rewrite Hq5, Hq2, Hp5.
    split; [by destruct a|]. split; [done|]. split; [by destruct a|].
    split; [exact Hlog1|exact Hticks1].
Qed.

(** X15. Resolving the pending [p] with an instance [q] that is already
    settled settles [p] before [resolvePromise] returns: with the value of
    a fulfilled [q] (a value without callable [then]), with the reason of a
    rejected [q].  Nothing is registered on [q], nothing is called and
    nothing is scheduled. *)
Theorem settled_promise_is_adopted_at_once m p q s :
  3 <= m -> p <> q ->
  p_status (get p s) = STATUS_PENDING ->
  p_status (get q s) <> STATUS_PENDING ->
  (p_status (get q s) = STATUS_FULFILLED -> plain (p_value (get q s)) = true) ->
  exists s',
    resolvePromise (sem user m) p (VPromise q) s = Return tt s' /\
    heap s' = heap (update p (match p_status (get q s) with
                              | STATUS_FULFILLED => fulfil_with (p_value (get q s))
                              | _ => reject_with (p_reason (get q s))
                              end) s) /\
    log s' = log s /\ ticks s' = ticks s.
Proof.
  intros Hm Hne Hp Hq Hv. destruct m as [|[|[|m]]]; try lia.
  change (resolvePromise (sem user (S (S (S m)))))
    with (resolvePromise_body (sem user (S (S m)))).
  unfold resolvePromise_body, bind at 1, gets. rewrite Hp.
  destruct (decide (p = q)); [done|].
  change (adoptPromise (sem user (S (S m)))) with (adoptPromise_body (sem user (S m))).
  unfold adoptPromise_body, bind at 1, gets.
  destruct (p_status (get q s)); [done| |].
  - apply resolvePromise_plain; [exact Hp|by apply Hv].
  - rewrite rejectPromise_pending by exact Hp. eexists. split; [reflexivity|done].
Qed.

End Adoption.

(** ** Reactions on a settled instance, and chains *)

Lemma ticks_after_then_settled p onFulfilled onRejected s :
  p < length (heap s) -> p_status (get p s) <> STATUS_PENDING ->
  ticks (after_then p onFulfilled onRejected s) = ticks s ++ [TickFlush p].
Proof.
  intros Hp Hs. unfold after_then.
  rewrite get_update_eq by (simpl; rewrite length_app; simpl; lia).
  rewrite get_alloc_old by done. simpl. by destruct (p_status (get p s)).
Qed.

Lemma settlement_derived_as user o item d d' :
  settlement d = settlement d' ->
  settlement (derived_as user o item d) = settlement (derived_as user o item d').
Proof.
  unfold settlement. intros [= H1 H2 H3]. unfold derived_as.
  destruct (select o item) as [[[| | | | | | | |[]] param]|]; simpl; try congruence.
  - destruct (completes _); simpl; congruence.
  - destruct (p_status o); simpl; congruence.
Qed.

Lemma derived_as_settled user o item d :
  observed user o item -> p_status o <> STATUS_PENDING ->
  p_status (derived_as user o item d) <> STATUS_PENDING.
Proof.
  unfold observed, derived_as. intros Hobs Hs.
  destruct (select o item) as [[[| | | | | | | |[]] param]|]; try done.
  - by destruct (completes _).
  - by destruct (p_status o).
Qed.

Section Ticks.

Variable user : nat -> list val -> body.

(** [then] on a settled instance with an empty list, then the host
    running the scheduled closure, on an observer. *)
Lemma then_settled_tick m p onFulfilled onRejected s :
  6 <= m ->
  p < length (heap s) ->
  p_status (get p s) <> STATUS_PENDING ->
  p_list (get p s) = [] ->
  ticks s = [] ->
  observed user (get p s) (Reaction onFulfilled onRejected (length (heap s))) ->
  exists s1 s2,
    then_ (sem user m) p onFulfilled onRejected s = Return (VPromise (length (heap s))) s1 /\
    log s1 = log s /\
    get (length (heap s)) s1 = fresh /\
    run_tick user m s1 = Return tt s2 /\
    log s2 = log s ++ invocation (get p s) (Reaction onFulfilled onRejected (length (heap s))) /\
    get (length (heap s)) s2 =
      derived_as user (get p s) (Reaction onFulfilled onRejected (length (heap s))) fresh /\
    p_list (get p s2) = [] /\
    settlement (get p s2) = settlement (get p s).
Proof.
  intros Hm Hp Hs Hl Ht Hobs.
  set (d := length (heap s)) in *.
  set (item := Reaction onFulfilled onRejected d) in *.
  set (s1 := after_then p onFulfilled onRejected s).
  assert (get p s1 = with_list [item] (get p s)) as Hp1.
  { unfold s1. rewrite get_after_then by done. rewrite decide_True by done. by rewrite Hl. }
  assert (get d s1 = fresh) as Hd1.
  { unfold s1. rewrite get_after_then by done.
    rewrite decide_False by (unfold d; lia). by rewrite decide_True. }
  assert (ticks s1 = [TickFlush p]) as Ht1.
  { unfold s1. rewrite ticks_after_then_settled by done. by rewrite Ht. }
  assert (log s1 = log s) as Hlog1 by apply log_after_then.
  assert (length (heap s1) = S d) as Hlen1 by apply length_heap_after_then.
  set (s1' := set_ticks [] s1).
  destruct (flush_observed_facts user (m - 1) p (get p s) s1') as (s2 & E & Hlog & Hl2 & Hst & Hd).
  { change (get p s1') with (get p s1). rewrite Hp1. simpl. lia. }
  { change (heap s1') with (heap s1). lia. }
  { change (get p s1') with (get p s1). by rewrite Hp1. }
  { done. }
  { change (get p s1') with (get p s1). rewrite Hp1. simpl. apply Forall_singleton.
    split; [exact Hobs|]. simpl. split; [unfold d; lia|].
    split; [change (heap s1') with (heap s1); lia|exact Hd1]. }
  { change (get p s1') with (get p s1). rewrite Hp1. simpl. apply NoDup_singleton. }
  exists s1, s2.
  split; [destruct m as [|m]; [lia|apply then_eq]|].
  split; [exact Hlog1|]. split; [exact Hd1|].
  split.
  { unfold run_tick. rewrite Ht1. unfold bind at 1. fold s1'.
    rewrite tick_eq by lia. unfold bind at 1. by rewrite E. }
  change (get p s1') with (get p s1) in *. rewrite Hp1 in *. simpl in Hlog, Hd.
  split; [by rewrite Hlog, app_nil_r; change (log s1') with (log s1); rewrite Hlog1|].
  split; [apply (Hd item); by apply list_elem_of_here|].
  split; [exact Hl2|]. rewrite Hst. by destruct (get p s).
Qed.

(** X12. [catch] on an instance rejected with [e]: the handler is not
    invoked by [catch] itself but when the host runs the closure [catch]
    handed to [nextTick]; it is invoked once, with [e], and when it returns
    the primitive [x] the instance [catch] returned is fulfilled with [x]. *)
Theorem catch_recovers_rejection m p id e x s :
  6 <= m ->
  p < length (heap s) ->
  p_status (get p s) = STATUS_REJECTED ->
  p_reason (get p s) = e ->
  p_list (get p s) = [] ->
  ticks s = [] ->
  actions (user id [e]) = [] ->
  completes (user id [e]) = Normal x ->
  primitive x ->
  exists s1 s2,
    catch_ (sem user m) p (VFunction (User id)) s = Return (VPromise (length (heap s))) s1 /\
    log s1 = log s /\
    get (length (heap s)) s1 = fresh /\
    run_tick user m s1 = Return tt s2 /\
    log s2 = log s ++ [Invoked id [e]] /\
    settlement (get (length (heap s)) s2) = (STATUS_FULFILLED, x, VUndefined).
Proof.
  intros Hm Hp Hs He Hl Ht Hq Hc Hx.
  destruct (then_settled_tick m p VNull (VFunction (User id)) s)
    as (s1 & s2 & E1 & Hlog1 & Hd1 & E2 & Hlog2 & Hd2 & _); try done.
  { by rewrite Hs. }
  { unfold observed, select. rewrite Hs, He. simpl. rewrite Hc. done. }
  exists s1, s2. split; [exact E1|]. split; [exact Hlog1|]. split; [exact Hd1|].
  split; [exact E2|]. rewrite Hlog2, Hd2.
  unfold invocation, derived_as, select. rewrite Hs, He. simpl. by rewrite Hc.
Qed.

(** X13. [then] on a settled instance when the callback for its state is
    missing or is not a function, so also [catch] on a fulfilled one: when
    the host runs the scheduled closure, the derived instance receives the
    same settlement (a primitive value, or the reason) and no function of
    the caller is invoked, whatever the other callback is. *)
Theorem missing_callback_passes_settlement_on m p onFulfilled onRejected s :
  6 <= m ->
  p < length (heap s) ->
  p_status (get p s) <> STATUS_PENDING ->
  p_list (get p s) = [] ->
  ticks s = [] ->
  isFunction (match p_status (get p s) with
              | STATUS_FULFILLED => onFulfilled
              | _ => onRejected
              end) = false ->
  (p_status (get p s) = STATUS_FULFILLED -> primitive (p_value (get p s))) ->
  exists s1 s2,
    then_ (sem user m) p onFulfilled onRejected s = Return (VPromise (length (heap s))) s1 /\
    run_tick user m s1 = Return tt s2 /\
    log s2 = log s /\
    settlement (get (length (heap s)) s2) =
      match p_status (get p s) with
      | STATUS_FULFILLED => (STATUS_FULFILLED, p_value (get p s), VUndefined)
      | _ => (STATUS_REJECTED, VUndefined, p_reason (get p s))
      end /\
    (onFulfilled = VNull -> catch_ (sem user m) p onRejected s = Return (VPromise (length (heap s))) s1).
Proof.
  intros Hm Hp Hs Hl Ht Hf Hv.
  assert (select (get p s) (Reaction onFulfilled onRejected (length (heap s))) = None) as Hsel.
  { unfold select. simpl. destruct (p_status (get p s)); [done|by rewrite Hf..]. }
  destruct (then_settled_tick m p onFulfilled onRejected s)
    as (s1 & s2 & E1 & Hlog1 & Hd1 & E2 & Hlog2 & Hd2 & _); try done.
  { unfold observed. by rewrite Hsel. }
  exists s1, s2. split; [exact E1|]. split; [exact E2|].
  unfold invocation, derived_as in *. rewrite Hsel in *.
  split; [by rewrite Hlog2, app_nil_r|]. split.
  - rewrite Hd2. by destruct (p_status (get p s)).
  - intros ->. exact E1.
Qed.

(** X14. A chain [p.then(c1).then(c2)] on a pending [p], with observers:
    the one call that settles [p] runs the first reaction, settles the
    first derived instance with its outcome, and goes on in the same call
    to run the second reaction with that outcome and to settle the second
    derived instance; the log holds the two invocations in that order. *)
Theorem chained_reactions_run_in_one_flush m p a c1 c2 s :
  let d1 := length (heap s) in
  let o1 := settled_by a (get p s) in
  let item1 := Reaction c1.1 c1.2 d1 in
  let o2 := derived_as user o1 item1 fresh in
  let item2 := Reaction c2.1 c2.2 (S d1) in
  9 <= m ->
  p < length (heap s) ->
  p_status (get p s) = STATUS_PENDING ->
  p_list (get p s) = [] ->
  (forall v, a = Fulfil v -> primitive v) ->
  observed user o1 item1 ->
  observed user o2 item2 ->
  exists s1 s2 s3,
    then_ (sem user m) p c1.1 c1.2 s = Return (VPromise d1) s1 /\
    then_ (sem user m) d1 c2.1 c2.2 s1 = Return (VPromise (S d1)) s2 /\
    call (sem user m) (settling p a).1 [(settling p a).2] s2 = Return VUndefined s3 /\
    log s3 = log s ++ invocation o1 item1 ++ invocation o2 item2 /\
    settlement (get d1 s3) = settlement o2 /\
    get (S d1) s3 = derived_as user o2 item2 fresh /\
    p_list (get p s3) = [] /\ p_list (get d1 s3) = [].
Proof.
  intros d1 o1 item1 o2 item2 Hm Hp Hs Hl Ha Hobs1 Hobs2.
  set (s1 := after_then p c1.1 c1.2 s).
  set (s2 := after_then d1 c2.1 c2.2 s1).
  assert (length (heap s1) = S d1) as Hlen1 by apply length_heap_after_then.
  assert (length (heap s2) = S (S d1)) as Hlen2.
  { unfold s2. by rewrite length_heap_after_then, Hlen1. }
  assert (get p s1 = with_list [item1] (get p s)) as Hp1.
  { unfold s1. rewrite get_after_then by done. rewrite decide_True by done. by rewrite Hl. }
  assert (get d1 s1 = fresh) as Hd1.
  { unfold s1. rewrite get_after_then by done.
    rewrite decide_False by (unfold d1; lia). by rewrite decide_True. }
  assert (get p s2 = with_list [item1] (get p s)) as Hp2.
  { unfold s2. rewrite get_after_then by lia.
    rewrite decide_False by (unfold d1; lia). rewrite decide_False by lia. exact Hp1. }
  assert (get d1 s2 = with_list [item2] fresh) as Hd2.
  { unfold s2. rewrite get_after_then by lia. rewrite decide_True by done.
    rewrite Hd1, Hlen1. done. }
  assert (get (S d1) s2 = fresh) as He2.
  { unfold s2. rewrite get_after_then by lia. rewrite decide_False by lia.
    by rewrite decide_True by lia. }
  assert (log s2 = log s) as Hlog2.
  { unfold s2, s1. by rewrite !log_after_then. }
  set (t0 := update p (settled_by a) s2).
  assert (get p t0 = settled_by a (with_list [item1] (get p s))) as Hpt0.
  { unfold t0. rewrite get_update_eq by lia. by rewrite Hp2. }
  assert (forall q, q <> p -> get q t0 = get q s2) as Hqt0.
  { intros q Hq. unfold t0. by rewrite get_update_ne. }
  assert (length (heap t0) = S (S d1)) as Hlent0.
  { unfold t0. by rewrite length_heap_update. }
  assert (p_status o1 <> STATUS_PENDING) as Ho1 by (unfold o1; by destruct a).
  assert (p_status o2 <> STATUS_PENDING) as Ho2 by by apply derived_as_settled.
  set (t1 := deliveries user p o1 [item1] t0).
  assert (p <> d1) as Hpd1 by (unfold d1; lia).
  assert (get d1 t1 = derived_as user o1 item1 (with_list [item2] fresh)) as Hd1t1.
  { unfold t1. change d1 with (item_promise item1) at 1.
    rewrite get_deliveries_derived.
    - simpl item_promise. by rewrite Hqt0, Hd2.
    - apply list_elem_of_here.
    - apply NoDup_singleton.
    - change (d1 <> p). lia.
    - change (d1 < length (heap t0)). lia. }
  assert (length (heap t1) = S (S d1)) as Hlent1.
  { unfold t1. by rewrite length_heap_deliveries. }
  assert (get (S d1) t1 = fresh) as He1.
  { unfold t1. rewrite get_deliveries_other.
    - by rewrite Hqt0, He2 by lia.
    - lia.
    - simpl. intros [H|H]%elem_of_cons; [lia|by apply elem_of_nil in H]. }
  assert (settlement (get d1 t1) = settlement o2) as Hsd1.
  { rewrite Hd1t1. by apply settlement_derived_as. }
  set (t2 := deliveries user d1 o2 [item2] t1).
  exists s1, s2, t2.
  split; [destruct m as [|m]; [lia|apply then_eq]|].
  split; [destruct m as [|m]; [lia|rewrite then_eq; by rewrite Hlen1]|].
  assert (flush (sem user (m - 1)) p t0 = Return tt t2) as E.
  { destruct m as [|[|[|[|m]]]]; try lia.
    replace (S (S (S (S m))) - 1) with (S (S (S m))) by lia.
    unfold flush. rewrite flush_promises_S. unfold flush_promises_body, bind at 1, gets.
    assert ((let* promises := flush_list (sem user (S (S m))) p [] in
             flush_promises (sem user (S (S m))) promises) t0 = Return tt t2) as E.
    { unfold bind at 1.
      rewrite (flush_list_observed user [item1] (S (S m)) p o1 [] t0).
      2:{ simpl. lia. }
      2:{ lia. }
      2:{ rewrite Hpt0. unfold o1. by destruct a. }
      2:{ done. }
      2:{ rewrite Hpt0. by destruct a. }
      2:{ apply Forall_singleton. split; [done|]. split; [simpl; lia|].
          simpl item_promise. by rewrite Hqt0, Hd2. }
      2:{ apply NoDup_singleton. }
      fold t1. simpl app. simpl fmap.
      rewrite flush_promises_S. unfold flush_promises_body, bind at 1, gets.
      assert ((let* promises := flush_list (sem user (S m)) d1 [] in
               flush_promises (sem user (S m)) promises) t1 = Return tt t2) as E'.
      { unfold bind at 1.
        rewrite (flush_list_observed user [item2] (S m) d1 o2 [] t1).
        2:{ simpl. lia. }
        2:{ lia. }
        2:{ exact Hsd1. }
        2:{ done. }
        2:{ rewrite Hd1t1. by rewrite p_list_derived_as. }
        2:{ apply Forall_singleton. split; [done|]. split; [simpl; lia|].
            simpl item_promise. by rewrite He1. }
        2:{ apply NoDup_singleton. }
        fold t2. simpl app. simpl fmap.
        apply flush_promises_idle; [simpl; lia|]. apply Forall_singleton.
        unfold t2. rewrite p_list_deliveries by lia. by rewrite He1. }
      assert (p_status (get d1 t1) = p_status o2) as Hst.
      { unfold settlement in Hsd1. congruence. }
      rewrite Hst. destruct (p_status o2); [done|exact E'|exact E']. }
    assert (p_status (get p t0) = p_status o1) as Hst.
    { rewrite Hpt0. unfold o1. by destruct a. }
    rewrite Hst. destruct (p_status o1); [done|exact E|exact E]. }
  split.
  { rewrite settling_eq; [|lia|by rewrite Hp2|done]. fold t0. unfold bind at 1. by rewrite E. }
  split.
  { unfold t2. rewrite log_deliveries. unfold t1. rewrite log_deliveries. simpl.
    rewrite !app_nil_r, <- app_assoc. change (log t0) with (log s2). by rewrite Hlog2. }
  split.
  { unfold t2. rewrite get_deliveries_self.
    - rewrite <- Hsd1. by destruct (get d1 t1).
    - lia.
    - simpl. intros [H|H]%elem_of_cons; [lia|by apply elem_of_nil in H]. }
  split.
  { unfold t2. change (S d1) with (item_promise item2) at 1.
    rewrite get_deliveries_derived.
    - simpl item_promise. by rewrite He1.
    - apply list_elem_of_here.
    - apply NoDup_singleton.
    - change (S d1 <> d1). lia.
    - change (S d1 < length (heap t1)). lia. }
  split.
  { unfold t2. rewrite p_list_deliveries by lia.
    unfold t1. rewrite get_deliveries_self; [done|lia|].
    simpl. intros [H|H]%elem_of_cons; [lia|by apply elem_of_nil in H]. }
  unfold t2. rewrite get_deliveries_self; [done|lia|].
  simpl. intros [H|H]%elem_of_cons; [lia|by apply elem_of_nil in H].
Qed.

(** X16. A reaction is run once.  After [then] on a settled instance and
    the host's call of the scheduled closure, which invokes the observer,
    a late call of one of the constructor's callbacks of that instance, or
    another call of the closure, returns without changing anything: the
    element left the list before its callback was called. *)
Theorem delivered_reaction_is_not_run_again m p onFulfilled onRejected a s :
  6 <= m ->
  p < length (heap s) ->
  p_status (get p s) <> STATUS_PENDING ->
  p_list (get p s) = [] ->
  ticks s = [] ->
  observed user (get p s) (Reaction onFulfilled onRejected (length (heap s))) ->
  exists s1 s2,
    then_ (sem user m) p onFulfilled onRejected s = Return (VPromise (length (heap s))) s1 /\
    run_tick user m s1 = Return tt s2 /\
    log s2 = log s ++ invocation (get p s) (Reaction onFulfilled onRejected (length (heap s))) /\
    call (sem user m) (settling p a).1 [(settling p a).2] s2 = Return VUndefined s2 /\
    call (sem user m) (VFunction (TickFlush p)) [] s2 = Return VUndefined s2.
Proof.
  intros Hm Hp Hs Hl Ht Hobs.
  destruct (then_settled_tick m p onFulfilled onRejected s Hm Hp Hs Hl Ht Hobs)
    as (s1 & s2 & E1 & _ & _ & E2 & Hlog2 & _ & Hl2 & Hst2).
  exists s1, s2. split; [exact E1|]. split; [exact E2|]. split; [exact Hlog2|].
  assert (p_status (get p s2) <> STATUS_PENDING) as Hs2.
  { unfold settlement in Hst2. injection Hst2 as -> _ _. exact Hs. }
  split.
  - rewrite settling_settled by (lia || done). unfold bind at 1.
    by rewrite flush_idle by (lia || done).
  - rewrite tick_eq by lia. unfold bind at 1. by rewrite flush_idle by (lia || done).
Qed.

End Ticks.

(** ** The further properties on concrete runs *)


Lemma fulfilled_value_is_never_a_promise_example :
  heap_ok one_fulfilled /\
  heap_ok (state_after (then_ (sem demo 6) 0 (VFunction (User 6)) VUndefined) one_fulfilled).
Proof.
  assert (heap_ok one_fulfilled) as H by (apply heap_okb_ok; reflexivity).
  split; [exact H|].
  destruct (fulfilled_value_is_never_a_promise demo 6 one_fulfilled H) as (_ & Hthen & _).
  apply Hthen.
Defined.

Lemma only_self_resolution_is_thrown_example :
  heap_ok one_waiting /\
  ~ throws (call (sem demo 6) (VFunction (SettleRejected 0)) [VStr "r"] one_waiting) /\
  ~ throws (all (sem demo 6) (VPromise <$> [0; 0]) one_waiting).
Proof.
  assert (heap_ok one_waiting) as H by (apply heap_okb_ok; reflexivity).
  split; [exact H|].
  destruct (only_self_resolution_is_thrown demo 6 one_waiting H)
    as (_ & Hrej & _ & _ & _ & _ & Hall).
  split; [apply Hrej|apply Hall].
Defined.

Lemma plain_value_fulfils_example :
  (0 < length (heap one_pending) /\
   p_status (get 0 one_pending) = STATUS_PENDING /\
   plain (VObject (Field (VNum 1))) = true) /\
  exists s',
    resolvePromise (sem demo 1) 0 (VObject (Field (VNum 1))) one_pending = Return tt s' /\
    settlement (get 0 s') = (STATUS_FULFILLED, VObject (Field (VNum 1)), p_reason (get 0 one_pending)) /\
    (forall q, q <> 0 -> get q s' = get q one_pending) /\
    log s' = log one_pending /\ ticks s' = ticks one_pending.
Proof.
  assert (0 < length (heap one_pending)) as H1 by (vm_compute; lia).
  split; [by repeat split|].
  exact (plain_value_fulfils demo 0 0 (VObject (Field (VNum 1))) one_pending H1 eq_refl eq_refl).
Defined.

Lemma unreadable_then_rejects_example :
  (p_status (get 0 one_pending) = STATUS_PENDING /\
   isObject VNull = true /\
   read_then VNull = inr (VError "Cannot read property 'then' of null")) /\
  exists s',
    resolvePromise (sem demo 1) 0 VNull one_pending = Return tt s' /\
    heap s' = heap (update 0 (reject_with (VError "Cannot read property 'then' of null"))
                      one_pending) /\
    log s' = log one_pending /\ ticks s' = ticks one_pending.
Proof.
  split; [by repeat split|].
  exact (unreadable_then_rejects demo 0 0 VNull _ one_pending eq_refl eq_refl eq_refl).
Defined.

Lemma thenable_that_calls_nothing_example :
  (p_status (get 0 one_pending) = STATUS_PENDING /\
   actions (demo 1 [VFunction (ThenableResolve (length (frames one_pending)));
                    VFunction (ThenableReject (length (frames one_pending)))]) = []) /\
  exists s',
    resolvePromise (sem demo 2) 0 (VObject (Field (VFunction (User 1)))) one_pending
      = Return tt s' /\
    log s' = log one_pending ++
             [Invoked 1 [VFunction (ThenableResolve (length (frames one_pending)));
                         VFunction (ThenableReject (length (frames one_pending)))]] /\
    heap s' = heap (update 0 (reject_with (VStr "boom")) one_pending).
Proof.
  split; [by split|].
  exact (thenable_that_calls_nothing demo 0 0 1 one_pending eq_refl eq_refl).
Defined.

Lemma thenable_first_settlement_wins_example :
  (0 < length (heap one_pending) /\
   p_status (get 0 one_pending) = STATUS_PENDING /\
   primitive (VNum 1) /\
   actions (demo 5 [VFunction (ThenableResolve (length (frames one_pending)));
                    VFunction (ThenableReject (length (frames one_pending)))])
     = thenable_call (length (frames one_pending)) (Fulfil (VNum 1)) ::
       (thenable_call (length (frames one_pending)) <$> [Refuse (VStr "r"); Fulfil (VNum 2)])) /\
  exists s',
    resolvePromise (sem demo (4 + 0)) 0 (VObject (Field (VFunction (User 5)))) one_pending
      = Return tt s' /\
    heap s' = heap (update 0 (settled_by (Fulfil (VNum 1))) one_pending) /\
    log s' = log one_pending ++
             [Invoked 5 [VFunction (ThenableResolve (length (frames one_pending)));
                         VFunction (ThenableReject (length (frames one_pending)))]].
Proof.
  assert (0 < length (heap one_pending)) as H1 by (vm_compute; lia).
  assert (forall v, Fulfil (VNum 1) = Fulfil v -> primitive v) as H3.
  { intros v [= <-]. by split. }
  split; [by repeat split|].
  exact (thenable_first_settlement_wins demo 0 0 5 (Fulfil (VNum 1))
           [Refuse (VStr "r"); Fulfil (VNum 2)] one_pending H1 eq_refl H3 eq_refl).
Defined.

Lemma Promise_resolve_creates_fulfilled_example :
  plain (VNum 7) = true /\
  exists s',
    Promise_resolve (sem demo (5 + 0)) (VNum 7) empty_state
      = Return (VPromise (length (heap empty_state))) s' /\
    heap s' = heap empty_state ++ [Instance STATUS_FULFILLED (VNum 7) VUndefined []] /\
    log s' = log empty_state /\ ticks s' = ticks empty_state.
Proof.
  split; [reflexivity|].
  exact (Promise_resolve_creates_fulfilled demo 0 (VNum 7) empty_state eq_refl).
Defined.

Lemma all_throws_at_element_without_then_example :
  (isPromise (VNum 5) = false /\ forall f, read_then (VNum 5) <> inl (VFunction f)) /\
  exists e s',
    all (sem demo 1) ((VPromise <$> [0]) ++ VNum 5 :: []) one_pending = Throw e s' /\
    e = VError "is not a function" /\
    heap s' = heap (after_all [0] one_pending) /\
    log s' = log one_pending.
Proof.
  assert (forall f, read_then (VNum 5) <> inl (VFunction f)) as H2 by (intros f [=]).
  split; [by split|].
  exact (all_throws_at_element_without_then demo 0 [0] (VNum 5) [] one_pending eq_refl H2).
Defined.

Lemma adopted_settlement_is_not_delivered_example :
  (p_status (get 0 pair_waiting) = STATUS_PENDING /\
   p_status (get 1 pair_waiting) = STATUS_PENDING /\
   p_list (get 0 pair_waiting) = [Reaction (VFunction (User 0)) VUndefined 2] /\
   p_list (get 1 pair_waiting) = []) /\
  exists s1 s2,
    resolvePromise (sem demo 6) 0 (VPromise 1) pair_waiting = Return tt s1 /\
    call (sem demo 6) (VFunction (SettleFulfilled 1)) [VNum 7] s1 = Return VUndefined s2 /\
    settlement (get 1 s2) = (STATUS_FULFILLED, VNum 7, VUndefined) /\
    settlement (get 0 s2) = (STATUS_FULFILLED, VNum 7, VUndefined) /\
    p_list (get 0 s2) = [Reaction (VFunction (User 0)) VUndefined 2] /\
    log s2 = log pair_waiting /\ ticks s2 = [].
Proof.
  split; [by repeat split|].
  assert (forall v, Fulfil (VNum 7) = Fulfil v -> primitive v) as Ha.
  { intros v [= <-]. by split. }
  destruct (adopted_settlement_is_not_delivered demo 6 0 1 (Fulfil (VNum 7)) pair_waiting)
    as (s1 & s2 & E1 & _ & _ & E2 & H1 & H2 & H3 & H4 & H5);
    [lia|vm_compute; lia|vm_compute; lia|lia|reflexivity|reflexivity|reflexivity|exact Ha|].
  exists s1, s2. split; [exact E1|]. split; [exact E2|].
  split; [exact H1|]. split; [exact H2|]. split; [exact H3|]. split; [exact H4|exact H5].
Defined.

Lemma catch_recovers_rejection_example :
  (p_status (get 0 one_rejected) = STATUS_REJECTED /\
   p_reason (get 0 one_rejected) = VStr "no" /\
   p_list (get 0 one_rejected) = [] /\ ticks one_rejected = [] /\
   actions (demo 0 [VStr "no"]) = [] /\ completes (demo 0 [VStr "no"]) = Normal (VStr "no")) /\
  exists s1 s2,
    catch_ (sem demo 6) 0 (VFunction (User 0)) one_rejected
      = Return (VPromise (length (heap one_rejected))) s1 /\
    log s1 = log one_rejected /\
    get (length (heap one_rejected)) s1 = fresh /\
    run_tick demo 6 s1 = Return tt s2 /\
    log s2 = log one_rejected ++ [Invoked 0 [VStr "no"]] /\
    settlement (get (length (heap one_rejected)) s2) = (STATUS_FULFILLED, VStr "no", VUndefined).
Proof.
  split; [by repeat split|].
  assert (0 < length (heap one_rejected)) as Hp by (vm_compute; lia).
  assert (primitive (VStr "no")) as Hx by by split.
  assert (6 <= 6) as Hm by lia.
  exact (catch_recovers_rejection demo 6 0 0 (VStr "no") (VStr "no") one_rejected
           Hm Hp eq_refl eq_refl eq_refl eq_refl eq_refl eq_refl Hx).
Defined.

Lemma missing_callback_passes_settlement_on_example :
  (p_status (get 0 one_fulfilled) = STATUS_FULFILLED /\
   p_value (get 0 one_fulfilled) = VNum 7 /\
   p_list (get 0 one_fulfilled) = [] /\ ticks one_fulfilled = []) /\
  exists s1 s2,
    catch_ (sem demo 6) 0 (VFunction (User 1)) one_fulfilled
      = Return (VPromise (length (heap one_fulfilled))) s1 /\
    run_tick demo 6 s1 = Return tt s2 /\
    log s2 = log one_fulfilled /\
    settlement (get (length (heap one_fulfilled)) s2) = (STATUS_FULFILLED, VNum 7, VUndefined).
Proof.
  split; [by repeat split|].
  assert (0 < length (heap one_fulfilled)) as Hp by (vm_compute; lia).
  assert (p_status (get 0 one_fulfilled) <> STATUS_PENDING) as Hs by (vm_compute; discriminate).
  assert (p_status (get 0 one_fulfilled) = STATUS_FULFILLED ->
          primitive (p_value (get 0 one_fulfilled))) as Hv by (intros _; by split).
  assert (6 <= 6) as Hm by lia.
  destruct (missing_callback_passes_settlement_on demo 6 0 VNull (VFunction (User 1))
              one_fulfilled Hm Hp Hs eq_refl eq_refl eq_refl Hv)
    as (s1 & s2 & _ & E2 & Hlog & Hd & Hcatch).
  exists s1, s2. split; [exact (Hcatch eq_refl)|]. split; [exact E2|].
  split; [exact Hlog|exact Hd].
Defined.

Lemma chained_reactions_run_in_one_flush_example :
  (p_status (get 0 one_pending) = STATUS_PENDING /\ p_list (get 0 one_pending) = []) /\
  exists s1 s2 s3,
    then_ (sem demo 9) 0 (VFunction (User 4)) VUndefined one_pending = Return (VPromise 1) s1 /\
    then_ (sem demo 9) 1 (VFunction (User 4)) VNull s1 = Return (VPromise 2) s2 /\
    call (sem demo 9) (VFunction (SettleFulfilled 0)) [VNum 7] s2 = Return VUndefined s3 /\
    log s3 = log one_pending ++ [Invoked 4 [VNum 7]; Invoked 4 [VNum 8]] /\
    settlement (get 1 s3) = (STATUS_FULFILLED, VNum 8, VUndefined) /\
    get 2 s3 = Instance STATUS_FULFILLED (VNum 9) VUndefined [].
Proof.
  split; [by split|].
  assert (forall v, Fulfil (VNum 7) = Fulfil v -> primitive v) as Ha.
  { intros v [= <-]. by split. }
  destruct (chained_reactions_run_in_one_flush demo 9 0 (Fulfil (VNum 7))
              (VFunction (User 4), VUndefined) (VFunction (User 4), VNull) one_pending)
    as (s1 & s2 & s3 & E1 & E2 & E3 & Hlog & Hd1 & Hd2 & _);
    [lia|vm_compute; lia|reflexivity|reflexivity|exact Ha| | |].
  - vm_compute. by repeat split.
  - vm_compute. by repeat split.
  - exists s1, s2, s3. split; [exact E1|]. split; [exact E2|]. split; [exact E3|].
    split; [exact Hlog|]. split; [exact Hd1|exact Hd2].
Defined.

Lemma settled_promise_is_adopted_at_once_example :
  (p_status (get 1 fulfilled_and_pending) = STATUS_PENDING /\
   p_status (get 0 fulfilled_and_pending) = STATUS_FULFILLED /\
   plain (p_value (get 0 fulfilled_and_pending)) = true) /\
  exists s',
    resolvePromise (sem demo 3) 1 (VPromise 0) fulfilled_and_pending = Return tt s' /\
    heap s' = heap (update 1 (fulfil_with (VNum 7)) fulfilled_and_pending) /\
    log s' = log fulfilled_and_pending /\ ticks s' = ticks fulfilled_and_pending.
Proof.
  split; [by repeat split|].
  assert (3 <= 3) as Hm by lia.
  assert (1 <> 0) as Hne by lia.
  assert (p_status (get 0 fulfilled_and_pending) <> STATUS_PENDING) as Hq
    by (vm_compute; discriminate).
  exact (settled_promise_is_adopted_at_once demo 3 1 0 fulfilled_and_pending
           Hm Hne eq_refl Hq (fun _ => eq_refl)).
Defined.

Lemma delivered_reaction_is_not_run_again_example :
  (p_status (get 0 one_fulfilled) <> STATUS_PENDING /\
   p_list (get 0 one_fulfilled) = [] /\ ticks one_fulfilled = []) /\
  exists s1 s2,
    then_ (sem demo 6) 0 (VFunction (User 0)) VUndefined one_fulfilled
      = Return (VPromise (length (heap one_fulfilled))) s1 /\
    run_tick demo 6 s1 = Return tt s2 /\
    log s2 = log one_fulfilled ++ [Invoked 0 [VNum 7]] /\
    call (sem demo 6) (VFunction (SettleFulfilled 0)) [VNum 9] s2 = Return VUndefined s2 /\
    call (sem demo 6) (VFunction (TickFlush 0)) [] s2 = Return VUndefined s2.
Proof.
  assert (p_status (get 0 one_fulfilled) <> STATUS_PENDING) as Hs by (vm_compute; discriminate).
  split; [by repeat split|].
  assert (0 < length (heap one_fulfilled)) as Hp by (vm_compute; lia).
  assert (6 <= 6) as Hm by lia.
  assert (observed demo (get 0 one_fulfilled)
            (Reaction (VFunction (User 0)) VUndefined (length (heap one_fulfilled)))) as Hobs.
  { vm_compute. by repeat split. }
  exact (delivered_reaction_is_not_run_again demo 6 0 (VFunction (User 0)) VUndefined
           (Fulfil (VNum 9)) one_fulfilled Hm Hp Hs eq_refl eq_refl Hobs).
Defined.
